(** * serial_device: or_event.py and threaded.py

    Shallow embedding of the event multiplexer of [or_event.py] and of the
    keep-alive worker and request helpers of [threaded.py]. *)

From Stdlib Require Import List String ZArith Bool Lia Permutation Sorted.
Import ListNotations.
Open Scope string_scope.

(** ** Python [threading.Event] objects, with the overrides of [orify]

    Events live in a store and are named by [nat] ids.  [flag] is the value of
    [is_set()].  [hook e = Some cb] records that [orify] has replaced the
    [set]/[clear] methods of [e] (the [_set] attribute exists) and that the
    attribute [e.changed] currently holds the closure [cb]; the closure built
    by [OrEvent] is determined by its captured variables [(or_event, events)]. *)

Module Events.

Definition callback := (nat * list nat)%type.

Record store := mkStore {
  flag : nat -> bool;
  hook : nat -> option callback;
  next : nat
}.

Definition upd {A} (f : nat -> A) (k : nat) (v : A) : nat -> A :=
  fun x => if Nat.eqb x k then v else f x.

Definition empty_store : store := mkStore (fun _ => false) (fun _ => None) 0.

(** [threading.Event()] *)
Definition new_event (s : store) : nat * store :=
  (next s, mkStore (upd (flag s) (next s) false) (upd (hook s) (next s) None)
                   (S (next s))).

(** The original [Event.set] / [Event.clear] ([event._set] / [event._clear]). *)
Definition raw_set (s : store) (e : nat) : store :=
  mkStore (upd (flag s) e true) (hook s) (next s).
Definition raw_clear (s : store) (e : nat) : store :=
  mkStore (upd (flag s) e false) (hook s) (next s).

(** The body of the closure [changed] of [OrEvent]:
    [bools = [i_event.is_set() for i_event in events]];
    [or_event.set()] if [any(bools)] else [or_event.clear()].  The [set] and
    [clear] it calls are the (possibly overridden) methods of [or_event]. *)
Definition run_changed (ev_set ev_clear : store -> nat -> option store)
  (s : store) (cb : callback) : option store :=
  let (or_event, events) := cb in
  if existsb (flag s) events then ev_set s or_event else ev_clear s or_event.

(** [event.set()] and [event.clear()]: the original method, then, when [orify]
    has overridden them ([or_set] / [or_clear]), [self.changed()].  The
    [fuel] bounds the depth of nested callbacks (Python's recursion limit);
    running out of it yields [None]. *)
Fixpoint ev_set (fuel : nat) (s : store) (e : nat) : option store :=
  match fuel with
  | O => None
  | S f =>
      let s1 := raw_set s e in
      match hook s1 e with
      | None => Some s1
      | Some cb => run_changed (ev_set f) (ev_clear f) s1 cb
      end
  end
with ev_clear (fuel : nat) (s : store) (e : nat) : option store :=
  match fuel with
  | O => None
  | S f =>
      let s1 := raw_clear s e in
      match hook s1 e with
      | None => Some s1
      | Some cb => run_changed (ev_set f) (ev_clear f) s1 cb
      end
  end.

(** [orify(event, changed_callback)]: [event.changed = changed_callback]; the
    methods are wrapped only the first time, and the wrappers always call the
    current [event.changed], so the store only records the latest callback. *)
Definition orify (s : store) (e : nat) (cb : callback) : store :=
  mkStore (flag s) (upd (hook s) e (Some cb)) (next s).

(** [OrEvent( *events)]: a fresh event, every source orified with the
    closure [changed], then [changed()] once for the initial state. *)
Definition OrEvent (fuel : nat) (s : store) (events : list nat)
  : option (nat * store) :=
  let (or_event, s1) := new_event s in
  let s2 := fold_left (fun st e => orify st e (or_event, events)) events s1 in
  match run_changed (ev_set fuel) (ev_clear fuel) s2 (or_event, events) with
  | Some s3 => Some (or_event, s3)
  | None => None
  end.

(** Depth of callback nesting allowed in the programs below. *)
Definition max_hook_depth : nat := 16.

End Events.

(** Option bind, used for the sequential Python statements below. *)
Notation "'let*' x := c 'in' k" :=
  (match c with Some x => k | None => None end)
  (at level 200, x pattern, c at level 100, k at level 200).

(** ** [EventProtocol] (threaded.py) *)

Module Protocol.
Import Events.

(** [connection_made]: [self.connected.set()] then
    [self.disconnected.clear()]. *)
Definition connection_made (fuel : nat) (s : store) (connected disconnected : nat)
  : option store :=
  let* s1 := ev_set fuel s connected in
  ev_clear fuel s1 disconnected.

(** [connection_lost(exception)]: first [super().connection_lost(exception)],
    pyserial's [Protocol.connection_lost], which raises [exception] when it
    is an [Exception]; then nothing below runs and the events are left as
    they were.  Otherwise ([exception] is [None]): [self.connected.clear()]
    then [self.disconnected.set()].  [ReaderThread] passes the exception
    that ended its read loop (e.g. the [SerialException] of a read from an
    unplugged adapter), and [None] when the loop ended because the thread
    was stopped or the port closed. *)
Definition connection_lost (fuel : nat) (s : store) (exception : bool)
  (connected disconnected : nat) : option store :=
  if exception then Some s
  else
    let* s1 := ev_clear fuel s connected in
    ev_set fuel s1 disconnected.

(** [EventProtocol.__init__]: two fresh (clear) events. *)
Definition new_protocol (s : store) : (nat * nat) * store :=
  let (c, s1) := new_event s in
  let (d, s2) := new_event s1 in
  ((c, d), s2).

(** [connection_made(transport)], or [connection_lost(exception)] with
    [exception] an [Exception] ([Lost true]) or [None] ([Lost false]). *)
Inductive transport_event := Made | Lost (exception : bool).

Definition handle (fuel : nat) (s : store) (pe : nat * nat) (t : transport_event)
  : option store :=
  match t with
  | Made => connection_made fuel s (fst pe) (snd pe)
  | Lost exception => connection_lost fuel s exception (fst pe) (snd pe)
  end.

(** A sequence of transport events delivered to one adapter. *)
Fixpoint handle_all (fuel : nat) (s : store) (pe : nat * nat)
  (ts : list transport_event) : option store :=
  match ts with
  | [] => Some s
  | t :: ts' => let* s1 := handle fuel s pe t in handle_all fuel s1 pe ts'
  end.

End Protocol.

(** ** [KeepAliveReader] (threaded.py) *)

Module Reader.
Import Events.

(** Exceptions raised in [run]: the [NameError] built for a missing port,
    and what [serial.serial_for_url] may raise ([serial.SerialException] or
    any other [Exception]). *)
Inductive exc :=
| NameError (msg : string)
| SerialException
| OtherException.

Record reader := mkReader {
  comport : string;
  default_timeout_s : option Z;
  connected : nat;
  close_request : nat;
  closed : nat;
  error : nat;
  has_connected : nat;
  error_exception : option exc;      (* [self.error.exception] *)
  protocol : option (nat * nat)      (* the adapter's (connected, disconnected) *)
}.

(** Program points of [run]; the waits carry the multiplexed events built by
    [OrEvent].  [PExit]: [closed] is set and the [return] inside
    [with ReaderThread(...)] runs [ReaderThread.__exit__] before [run]
    returns.  [PReturned]: [run] has returned. *)
Inductive pc :=
| PStart                            (* initial port check *)
| PPortLoop                         (* [while self.comport not in get_serial_ports(...)] *)
| PPortWait                         (* [self.close_request.wait(2)] *)
| POpen                             (* [serial.serial_for_url(...)] *)
| PWaitConnect (cev dev : nat)      (* [connected_event.wait(...)] *)
| PConnectCheck (dev : nat)         (* [if self.close_request.is_set()] after it;
                                       then [self.connected.set()] *)
| PHasConnected (dev : nat)         (* [self.has_connected.set()] *)
| PWaitDisconnect (dev : nat)       (* [disconnected_event.wait()] *)
| PExit                             (* [ReaderThread.__exit__] *)
| PReturned.

Record world := mkWorld { st : store; rd : reader; at_pc : pc }.

Definition set_store (w : world) (s : store) : world := mkWorld s (rd w) (at_pc w).
Definition goto (w : world) (p : pc) : world := mkWorld (st w) (rd w) p.

Definition with_exception (r : reader) (e : exc) : reader :=
  mkReader (comport r) (default_timeout_s r) (connected r) (close_request r)
    (closed r) (error r) (has_connected r) (Some e) (protocol r).

Definition with_protocol (r : reader) (p : nat * nat) : reader :=
  mkReader (comport r) (default_timeout_s r) (connected r) (close_request r)
    (closed r) (error r) (has_connected r) (error_exception r) (Some p).

Definition is_set (w : world) (e : nat) : bool := flag (st w) e.

Definition fuel := max_hook_depth.

(** [KeepAliveReader.__init__(protocol_class, comport, **kwargs)], with
    [default_timeout_s = kwargs.get('default_timeout_s', None)]; [timeout] is
    the value of the keyword [default_timeout_s], [None] when it is not
    given.  The keyword stays in [self.kwargs]. *)
Definition init_world (port : string) (timeout : option Z) : world :=
  let s := empty_store in
  let (c, s) := new_event s in
  let (cr, s) := new_event s in
  let (cl, s) := new_event s in
  let (er, s) := new_event s in
  let (hc, s) := new_event s in
  mkWorld s (mkReader port timeout c cr cl er hc None None) PStart.

(** [', '.join(available_ports)] *)
Fixpoint join (sep : string) (l : list string) : string :=
  match l with
  | [] => ""
  | [x] => x
  | x :: l' => x ++ sep ++ join sep l'
  end.

Definition port_missing_msg (port : string) (ports : list string) : string :=
  "Port `" ++ port ++ "` not available." ++ "  Available ports: "
  ++ join ", " ports.

Definition port_in (port : string) (ports : list string) : bool :=
  existsb (String.eqb port) ports.

(** The timeout passed to [connected_event.wait]:
    [None if self.has_connected.is_set() else self.default_timeout_s]. *)
Definition connect_timeout (w : world) : option Z :=
  if is_set w (has_connected (rd w)) then None else default_timeout_s (rd w).

(** [self.error.exception = exception; self.error.set(); self.closed.set();
    return] *)
Definition fail_with (w : world) (e : exc) : option world :=
  let r := with_exception (rd w) e in
  let* s1 := ev_set fuel (st w) (error r) in
  let* s2 := ev_set fuel s1 (closed r) in
  Some (mkWorld s2 r PReturned).

(** [self.closed.set(); return] *)
Definition close_and_return (w : world) : option world :=
  let* s1 := ev_set fuel (st w) (closed (rd w)) in
  Some (mkWorld s1 (rd w) PReturned).

(** [self.closed.set(); return] inside [with ReaderThread(...)]: the
    [return] leaves the block through [ReaderThread.__exit__] first. *)
Definition close_and_exit (w : world) : option world :=
  let* s1 := ev_set fuel (st w) (closed (rd w)) in
  Some (mkWorld s1 (rd w) PExit).

(** What the environment supplies to the worker thread at each program point:
    a port enumeration, the return of the 2 s wait, the outcome of
    [serial_for_url], or the return of a wait on an event. *)
Inductive open_result := Opened | OpenRaised (e : exc).

Inductive input :=
| IEnum (ports : list string)
| IWaitElapsed
| IOpen (r : open_result)
| IWaitReturn
| INext.                            (* the worker runs its next statement *)

(** One step of the worker thread [KeepAliveReader.run] from its current
    program point, given what the environment supplies there.  [None]: the
    step is not possible (the thread has returned, or it is blocked in a wait
    whose event is clear and which has no timeout). *)
Definition worker_step (w : world) (i : input) : option world :=
  let r := rd w in
  match at_pc w, i with
  | PStart, IEnum available_ports =>
      if port_in (comport r) available_ports then Some (goto w PPortLoop)
      else fail_with w (NameError (port_missing_msg (comport r) available_ports))
  | PPortLoop, IEnum ports =>
      if port_in (comport r) ports then Some (goto w POpen)
      else Some (goto w PPortWait)
  | PPortWait, IWaitElapsed =>
      (* [self.close_request.wait(2)] returned (set or 2 s elapsed) *)
      if is_set w (close_request r) then close_and_return w
      else Some (goto w PPortLoop)
  | POpen, IOpen (OpenRaised e) => fail_with w e
  | POpen, IOpen Opened =>
      match default_timeout_s r with
      | Some _ =>
          (* [serial_for_url(self.comport, **self.kwargs)] gets the keyword
             [default_timeout_s], which [serial.Serial] refuses with
             [ValueError('unexpected keyword arguments: ...')]: the open
             cannot succeed (the outcome that occurs is
             [OpenRaised OtherException]). *)
          None
      | None =>
      (* [with serial.threaded.ReaderThread(device, self.protocol_class) as
         protocol]: the reader thread builds the protocol and calls
         [connection_made] before [__enter__] returns it. *)
      let (pe, s1) := Protocol.new_protocol (st w) in
      let* s2 := Protocol.connection_made fuel s1 (fst pe) (snd pe) in
      let r1 := with_protocol r pe in
      let* (cev, s3) := OrEvent fuel s2 [fst pe; close_request r1] in
      let* (dev, s4) := OrEvent fuel s3 [snd pe; close_request r1] in
      Some (mkWorld s4 r1 (PWaitConnect cev dev))
      end
  | PWaitConnect cev dev, IWaitReturn =>
      (* [connected_event.wait(timeout)] returns once [connected_event] is
         set, or when a timeout is given and elapses. *)
      if is_set w cev || match connect_timeout w with Some _ => true | None => false end then
        Some (goto w (PConnectCheck dev))
      else None
  | PConnectCheck dev, INext =>
      if is_set w (close_request r) then close_and_exit w
      else
        let* s1 := ev_set fuel (st w) (connected r) in
        Some (mkWorld s1 r (PHasConnected dev))
  | PHasConnected dev, INext =>
      let* s1 := ev_set fuel (st w) (has_connected r) in
      Some (mkWorld s1 r (PWaitDisconnect dev))
  | PWaitDisconnect dev, IWaitReturn =>
      (* [disconnected_event.wait()] has no timeout *)
      if is_set w dev then
        if is_set w (close_request r) then close_and_exit w
        else
          let* s1 := ev_clear fuel (st w) (connected r) in
          Some (mkWorld s1 r PPortLoop)
      else None
  | PExit, INext =>
      (* [ReaderThread.__exit__]: [close()], that is [stop()] ([alive =
         False], [join(2)]) then [serial.close()]; no event of the store
         changes here: the [connection_lost] of the stopping reader thread is
         [adapter_lost]. *)
      Some (goto w PReturned)
  | _, _ => None
  end.

(** [KeepAliveReader.close()], called from another thread. *)
Definition close (w : world) : option world :=
  let* s1 := ev_set fuel (st w) (close_request (rd w)) in
  Some (set_store w s1).

(** The reader thread of [with ReaderThread(...)] calls [connection_lost] on
    the adapter when its read loop ends: while the worker is in the block,
    or from [ReaderThread.__exit__] ([stop()], [join(2)]) when the worker
    leaves it, and possibly later, as the join may time out.  The model lets
    it come at any time once [self.protocol] is set. *)
Definition adapter_lost (w : world) (exception : bool) : option world :=
  match protocol (rd w) with
  | Some pe =>
      let* s1 := Protocol.connection_lost fuel (st w) exception (fst pe) (snd pe) in
      Some (set_store w s1)
  | None => None
  end.

(** Interleavings of the worker thread with the other threads. *)
Inductive action :=
| Worker (i : input)
| Close
| AdapterLost (exception : bool).

Definition step (w : world) (a : action) : option world :=
  match a with
  | Worker i => worker_step w i
  | Close => close w
  | AdapterLost exception => adapter_lost w exception
  end.

Fixpoint exec (w : world) (acts : list action) : option world :=
  match acts with
  | [] => Some w
  | a :: acts' => let* w1 := step w a in exec w1 acts'
  end.

Definition run_from (port : string) (timeout : option Z) (acts : list action)
  : option world :=
  exec (init_world port timeout) acts.

End Reader.

(** ** [request], [KeepAliveReader.write], [KeepAliveReader.request]

    Time is a [Z] clock.  A call ends at some time with a value, ends at some
    time with an exception, or never returns. *)

Module Request.

Inductive pyexc :=
| QueueEmpty (msg : string)     (* [queue.Empty] *)
| TypeError                     (* e.g. [float < None] *)
| ValueError.                   (* [Queue.get] with a negative timeout *)

Inductive outcome (A : Type) :=
| Done (t : Z) (a : A)
| Raised (t : Z) (e : pyexc)
| Hangs.
Arguments Done {A}.
Arguments Raised {A}.
Arguments Hangs {A}.

(** A [queue.Queue] during the call: the items put into it, in FIFO order,
    each with the time it is put. *)
Definition queue_trace (A : Type) := list (Z * A).

(** [response_queue.empty()] at time [t]. *)
Definition q_empty {A} (q : queue_trace A) (t : Z) : bool :=
  match q with
  | (ta, _) :: _ => negb (ta <=? t)%Z
  | [] => true
  end.

(** [response_queue.get(timeout=timeout)] started at [t0]. *)
Definition q_get {A} (q : queue_trace A) (timeout : option Z) (t0 : Z) : outcome A :=
  match timeout with
  | Some tm =>
      if (tm <? 0)%Z then Raised t0 ValueError
      else match q with
           | (ta, x) :: _ =>
               if (ta <=? t0 + tm)%Z then Done (Z.max t0 ta) x
               else Raised (t0 + tm) (QueueEmpty "")
           | [] => Raised (t0 + tm) (QueueEmpty "")
           end
  | None =>
      match q with
      | (ta, x) :: _ => Done (Z.max t0 ta) x
      | [] => Hangs
      end
  end.

(** [a < b] for a float [a] and a [timeout_s] that may be [None]. *)
Definition py_lt (a : Z) (b : option Z) : option bool :=
  match b with
  | Some b => Some (a <? b)%Z
  | None => None                  (* TypeError *)
  end.

(** The polling loop
    [while time.time() - start_time < timeout_s:
       if not response_queue.empty(): return response_queue.get()];
    [clock] are the successive times of the loop's operations: the value of
    [time.time()] read in the loop condition, then, when the condition
    holds, the time at which [response_queue.empty()] runs, and so on.
    [None]: the times ran out before the loop ended. *)
Fixpoint poll_loop {A} (q : queue_trace A) (start_time : Z) (timeout_s : option Z)
  (clock : list Z) : option (outcome A) :=
  match clock with
  | [] => None
  | now :: clock' =>
      match py_lt (now - start_time) timeout_s with
      | None => Some (Raised now TypeError)
      | Some true =>
          match clock' with
          | [] => None
          | t_empty :: clock'' =>
              if negb (q_empty q t_empty) then Some (q_get q None t_empty)
              else poll_loop q start_time timeout_s clock''
          end
      | Some false =>
          Some (Raised now (QueueEmpty "No response received within the timeout period."))
      end
  end.

(** [request(device, response_queue, payload, timeout_s, poll)] started at
    time [t0]; [device_write] is [device.write] (started at a time, it ends at
    a time); [clock] are the times of the polling branch: the reading of
    [time.time()] stored in [start_time], then those of [poll_loop]. *)
Definition request {A} (device_write : string -> Z -> outcome bool)
  (response_queue : queue_trace A) (payload : string) (timeout_s : option Z)
  (poll : bool) (clock : list Z) (t0 : Z) : option (outcome A) :=
  match device_write payload t0 with
  | Hangs => Some Hangs
  | Raised t e => Some (Raised t e)
  | Done t1 _ =>
      if negb poll then
        match q_get response_queue timeout_s t1 with
        | Raised t (QueueEmpty _) => Some (Raised t (QueueEmpty "No response received."))
        | o => Some o
        end
      else
        match clock with
        | [] => None
        | start_time :: clock' => poll_loop response_queue start_time timeout_s clock'
        end
  end.

(** A [threading.Event] during the call: [Some c] if it is set from time [c]
    on, [None] if it stays clear. *)
Definition event_trace := option Z.

(** [event.wait(timeout)] started at [t0]; ends at a time. *)
Definition ev_wait (e : event_trace) (timeout : option Z) (t0 : Z) : outcome bool :=
  match e, timeout with
  | Some c, _ =>
      if (c <=? t0)%Z then Done t0 true           (* [signaled = self._flag] *)
      else match timeout with
           | None => Done c true
           | Some tm =>
               if (tm <=? 0)%Z then Done t0 false
               else if (c <=? t0 + tm)%Z then Done c true
               else Done (t0 + tm) false
           end
  | None, Some tm => if (tm <=? 0)%Z then Done t0 false else Done (t0 + tm) false
  | None, None => Hangs
  end.

(** [KeepAliveReader.write(data, timeout_s=None)]:
    [self.connected.wait(timeout_s)]; [if self.protocol:
    self.protocol.transport.write(data)].  The result says whether [data]
    was handed to the transport. *)
Definition reader_write (connected : event_trace) (has_protocol : bool)
  (timeout_s : option Z) (data : string) (t0 : Z) : outcome bool :=
  match ev_wait connected timeout_s t0 with
  | Done t1 _ => Done t1 has_protocol
  | Raised t e => Raised t e
  | Hangs => Hangs
  end.

(** [KeepAliveReader.request(response_queue, payload, timeout_s, poll)]:
    [self.connected.wait(timeout_s)], then
    [request(self, response_queue=..., payload=..., timeout_s=..., poll=...)],
    whose [device.write(payload)] is [self.write(payload)]. *)
Definition reader_request {A} (connected : event_trace) (has_protocol : bool)
  (response_queue : queue_trace A) (payload : string) (timeout_s : option Z)
  (poll : bool) (clock : list Z) (t0 : Z) : option (outcome A) :=
  match ev_wait connected timeout_s t0 with
  | Hangs => Some Hangs
  | Raised t e => Some (Raised t e)
  | Done t1 _ =>
      request (fun data t => reader_write connected has_protocol None data t)
        response_queue payload timeout_s poll clock t1
  end.

End Request.

(** ** Concrete scenarios *)

Module Scenarios.
Import Events Reader.

(** [a], [e], [b] fresh events (ids 0, 1, 2);
    [d1 = OrEvent(a, e)] (id 3); [e.set()]; [d2 = OrEvent(b, e)] (id 4);
    [e.clear()]. *)
Definition shared_then_clear : option store :=
  let (a, s) := new_event empty_store in
  let (e, s) := new_event s in
  let (b, s) := new_event s in
  let* (d1, s) := OrEvent max_hook_depth s [a; e] in
  let* s := ev_set max_hook_depth s e in
  let* (d2, s) := OrEvent max_hook_depth s [b; e] in
  ev_clear max_hook_depth s e.

(** [a], [b], [e] fresh events (ids 0, 1, 2);
    [d1 = OrEvent(a, e)] (id 3); [d2 = OrEvent(b, e)] (id 4); [e.set()]. *)
Definition overlapping_then_set : option store :=
  let (a, s) := new_event empty_store in
  let (b, s) := new_event s in
  let (e, s) := new_event s in
  let* (d1, s) := OrEvent max_hook_depth s [a; e] in
  let* (d2, s) := OrEvent max_hook_depth s [b; e] in
  ev_set max_hook_depth s e.

Definition the_store (o : option store) : store :=
  match o with Some s => s | None => empty_store end.

Definition the_world (o : option world) : world :=
  match o with Some w => w | None => init_world "" None end.

(** The port is present, opened, the adapter connects. *)
Definition open_port : list action :=
  [Worker (IEnum ["COM1"]); Worker (IEnum ["COM1"]); Worker (IOpen Opened)].

Definition open_then_close : list action := open_port ++ [Close].

Definition after_close : list action := [AdapterLost false; Worker IWaitReturn].

(** The adapter loses the connection ([connection_lost(None)]) before the
    connect wait returns. *)
Definition lost_before_connect : list action := open_port ++ [AdapterLost false].

(** The connect wait returns with the adapter connected; the adapter's
    [connection_lost(None)] runs before the worker checks [close_request]
    and sets [connected]. *)
Definition lost_after_connect_wait : list action :=
  open_port ++ [Worker IWaitReturn; AdapterLost false; Worker INext].

Definition connected_after_loss : world :=
  the_world (run_from "COM1" None lost_after_connect_wait).

(** Connected and waiting for the disconnection, the adapter's read fails
    (an unplugged USB adapter): [connection_lost(SerialException(...))]. *)
Definition unplugged : list action :=
  open_port ++ [Worker IWaitReturn; Worker INext; Worker INext; AdapterLost true].

Definition unplugged_world : world :=
  the_world (run_from "COM1" None unplugged).

(** No [default_timeout_s]: the adapter is lost, then [close()] is called. *)
Definition closed_while_connecting : world :=
  the_world (run_from "COM1" None (lost_before_connect ++ [Close])).

(** A fresh [EventProtocol] (events 0 and 1) that is connected, then lost. *)
Definition adapter_store : store := snd (Protocol.new_protocol empty_store).

Definition made_then_failed : list Protocol.transport_event :=
  [Protocol.Made; Protocol.Lost true].

Definition adapter_after_failure : store :=
  the_store (Protocol.handle_all max_hook_depth adapter_store (0, 1) made_then_failed).

End Scenarios.

(** ** [get_serial_ports] and [SerialDevice.get_port] (connections.py)

    Port names are strings of characters with code points below 256.  The
    enumeration [lsp.comports()] is given as the list of the [device] names
    of its entries; [test_connection] is given by what it returns for each
    port (it opens the port to find out). *)

Module Connections.

(** [str.lower()] on one character: the ASCII capitals and the Latin-1
    capitals (U+00C0 to U+00DE except U+00D7) move up by 32. *)
Definition lower_char (c : Ascii.ascii) : Ascii.ascii :=
  let n := Ascii.nat_of_ascii c in
  if (Nat.leb 65 n && Nat.leb n 90) || (Nat.leb 192 n && Nat.leb n 222 && negb (Nat.eqb n 215))
  then Ascii.ascii_of_nat (n + 32) else c.

(** [s.lower()] *)
Fixpoint lower (s : string) : string :=
  match s with
  | EmptyString => EmptyString
  | String c s' => String (lower_char c) (lower s')
  end.

(** [needle in haystack] *)
Fixpoint contains (needle haystack : string) : bool :=
  match haystack with
  | EmptyString => String.prefix needle haystack
  | String _ h' => String.prefix needle haystack || contains needle h'
  end.

(** [not only_available or test_connection(port_name)] for one entry of the
    enumeration, on Windows or, elsewhere, for names containing [usb] or
    [acm]; with the ports [test_connection] was called on. *)
Definition append_port (windows only_available : bool)
  (test_connection : string -> bool) (port_name : string) : bool * list string :=
  let check :=
    if negb only_available then (true, [])
    else (test_connection port_name, [port_name]) in
  if windows then check
  else if contains "usb" (lower port_name) || contains "acm" (lower port_name)
  then check
  else (false, []).

(** The loop [for port_info in lsp.comports(): ... ports.append(port_name)]. *)
Fixpoint collect_ports (windows only_available : bool)
  (test_connection : string -> bool) (devices : list string)
  : list string * list string :=
  match devices with
  | [] => ([], [])
  | port_name :: rest =>
      let (append, tested) := append_port windows only_available test_connection port_name in
      let (ports, tested') := collect_ports windows only_available test_connection rest in
      (if append then port_name :: ports else ports, (tested ++ tested')%list)
  end.

(** [sorted(ports)]: Python orders strings by code point. *)
Fixpoint insert_sorted (x : string) (l : list string) : list string :=
  match l with
  | [] => [x]
  | y :: l' => if String.leb x y then x :: l else y :: insert_sorted x l'
  end.

Definition sorted (l : list string) : list string := fold_right insert_sorted [] l.

(** [get_serial_ports(sort_ports, only_available)] with
    [platform.system() == 'Windows'] given as [windows]: the list returned,
    and the ports [test_connection] opened, in order. *)
Definition get_serial_ports (windows : bool) (comports : list string)
  (test_connection : string -> bool) (sort_ports only_available : bool)
  : list string * list string :=
  let (ports, tested) := collect_ports windows only_available test_connection comports in
  (if sort_ports then sorted ports else ports, tested).

(** [self.test_connection(test_port, baud_rate)]: [True], [False] (a
    [SerialException] is caught and printed), or another exception (e.g. the
    [ValueError] of [ser.baudrate = baud_rate] for an invalid rate), which
    propagates. *)
Inductive test_result := Accepts | Refuses | TestRaises.

Inductive get_port_event := Tested (port : string) | Slept.

Inductive get_port_result :=
| PortFound (port : string)
| ConnectionError                  (* [raise ConnectionError(...)] *)
| Propagated.                      (* an exception of [test_connection] or [sleep] *)

(** [sleep(serial_test_delay)] for [serial_test_delay : Optional[float]]
    (a number of seconds, of which only the sign matters here): it returns
    for a number that is not negative, and raises [TypeError] for [None] and
    [ValueError] for a negative number. *)
Definition sleep_returns (serial_test_delay : option Z) : bool :=
  match serial_test_delay with
  | Some d => (0 <=? d)%Z
  | None => false
  end.

(** [for test_port in ...: if self.test_connection(test_port, baud_rate):
    self.port = test_port; break; sleep(serial_test_delay)], then
    [if self.port is None: raise ConnectionError(...)]. *)
Fixpoint get_port_loop (test_connection : string -> test_result)
  (serial_test_delay : option Z) (ports : list string)
  : get_port_result * list get_port_event :=
  match ports with
  | [] => (ConnectionError, [])
  | test_port :: rest =>
      match test_connection test_port with
      | Accepts => (PortFound test_port, [Tested test_port])
      | TestRaises => (Propagated, [Tested test_port])
      | Refuses =>
          if sleep_returns serial_test_delay then
            let (r, tr) := get_port_loop test_connection serial_test_delay rest in
            (r, Tested test_port :: Slept :: tr)
          else (Propagated, [Tested test_port])
      end
  end.

(** [SerialDevice.get_port(baud_rate, serial_test_delay)]: the ports come
    from [get_serial_ports()] ([sort_ports=True], [only_available=False]). *)
Definition get_port (windows : bool) (comports : list string)
  (port_available : string -> bool) (test_connection : string -> Z -> test_result)
  (baud_rate : Z) (serial_test_delay : option Z) : get_port_result * list get_port_event :=
  get_port_loop (fun p => test_connection p baud_rate) serial_test_delay
    (fst (get_serial_ports windows comports port_available true false)).

End Connections.

(** ** Calls of [set()] and [clear()] made by a client thread *)

Module EventCalls.
Import Events.

Inductive ev_call := CallSet (e : nat) | CallClear (e : nat).

Definition call_target (c : ev_call) : nat :=
  match c with CallSet e | CallClear e => e end.

(** [e.set()] / [e.clear()] in sequence; [None] when a call exceeds the
    nesting depth [fuel]. *)
Fixpoint apply_calls (fuel : nat) (s : store) (calls : list ev_call) : option store :=
  match calls with
  | [] => Some s
  | CallSet e :: calls' => let* s1 := ev_set fuel s e in apply_calls fuel s1 calls'
  | CallClear e :: calls' => let* s1 := ev_clear fuel s e in apply_calls fuel s1 calls'
  end.

End EventCalls.

(** ** [KeepAliveReader.alive] *)

Module ReaderProps.
Import Events Reader.

(** [not self.closed.is_set()] *)
Definition alive (w : world) : bool := negb (is_set w (closed (rd w))).

End ReaderProps.

(** ** More concrete inputs *)

Module MoreScenarios.
Import Events EventCalls.

(** Three fresh events, ids 0, 1 and 2, all clear. *)
Definition three_events : store :=
  snd (new_event (snd (new_event (snd (new_event empty_store))))).

(** [d = OrEvent(e0, e1)] over [three_events] (id 3) ... *)
Definition or_01 : store :=
  match OrEvent max_hook_depth three_events [0; 1] with
  | Some (_, s) => s
  | None => empty_store
  end.

(** ... then [e0.set(); e2.set(); e0.clear(); e1.set(); e1.clear()]. *)
Definition calls_01 : list ev_call :=
  [CallSet 0; CallSet 2; CallClear 0; CallSet 1; CallClear 1].

Definition after_calls_01 : store :=
  match apply_calls max_hook_depth or_01 calls_01 with
  | Some s => s
  | None => empty_store
  end.

(** The port is opened and the adapter connects; the connect wait returns,
    the worker sets [connected] and [has_connected] and waits for the
    disconnection. *)
Definition to_connected : list Reader.action :=
  Scenarios.open_port ++
  [Reader.Worker Reader.IWaitReturn; Reader.Worker Reader.INext; Reader.Worker Reader.INext].

Definition connected_world : Reader.world :=
  Scenarios.the_world (Reader.run_from "COM1" None to_connected).

(** [close()] is called while the worker is about to list the ports again. *)
Definition close_at_port_loop : list Reader.action :=
  [Reader.Worker (Reader.IEnum ["COM1"]); Reader.Close].

Definition closed_at_port_loop : Reader.world :=
  Scenarios.the_world (Reader.run_from "COM1" None close_at_port_loop).



End MoreScenarios.

(** * Properties *)

Module EventFacts.
Import Events.

(** Every callback installed by [orify] updates an event with id [>= n]. *)
Definition hooks_above (n : nat) (s : store) : Prop :=
  forall x d l, hook s x = Some (d, l) -> n <= d.

Lemma upd_eq {A} (f : nat -> A) k v x :
  upd f k v x = if Nat.eqb x k then v else f x.
Proof. reflexivity. Qed.

(** [set] and [clear] change no callback, allocate nothing, and below [n]
    change only the flag of the event they are called on. *)
Lemma ev_set_clear_low (n : nat) : forall fuel,
  (forall s e s', hooks_above n s -> ev_set fuel s e = Some s' ->
     hook s' = hook s /\ next s' = next s /\
     forall x, x < n -> flag s' x = (if Nat.eqb x e then true else flag s x)) /\
  (forall s e s', hooks_above n s -> ev_clear fuel s e = Some s' ->
     hook s' = hook s /\ next s' = next s /\
     forall x, x < n -> flag s' x = (if Nat.eqb x e then false else flag s x)).
Proof.
  induction fuel as [|f [IHs IHc]]; split; intros s e s' Hh He; try discriminate;
    simpl in He;
    (destruct (hook s e) as [[d l]|] eqn:Hk;
     [ assert (Hd : n <= d) by (eapply Hh; eauto);
       unfold run_changed in He;
       destruct (existsb _ l);
       [ match type of He with ev_set _ ?s0 ?d0 = _ => destruct (IHs s0 d0 s' Hh He) as (H1 & H2 & H3) end
       | match type of He with ev_clear _ ?s0 ?d0 = _ => destruct (IHc s0 d0 s' Hh He) as (H1 & H2 & H3) end ];
       (repeat split; auto; intros x Hx; rewrite H3 by exact Hx; simpl;
        replace (Nat.eqb x d) with false by (symmetry; apply Nat.eqb_neq; lia);
        reflexivity)
     | injection He as <-; repeat split; auto ]).
Qed.

Lemma ev_set_low n fuel s e s' :
  hooks_above n s -> ev_set fuel s e = Some s' ->
  hook s' = hook s /\ next s' = next s /\
  forall x, x < n -> flag s' x = (if Nat.eqb x e then true else flag s x).
Proof. apply (ev_set_clear_low n fuel). Qed.

Lemma ev_clear_low n fuel s e s' :
  hooks_above n s -> ev_clear fuel s e = Some s' ->
  hook s' = hook s /\ next s' = next s /\
  forall x, x < n -> flag s' x = (if Nat.eqb x e then false else flag s x).
Proof. apply (ev_set_clear_low n fuel). Qed.

Lemma hooks_above_ext n s s' :
  hook s' = hook s -> hooks_above n s -> hooks_above n s'.
Proof. unfold hooks_above. intros -> H. exact H. Qed.

Lemma fold_orify_facts n d evs : forall l s,
  n <= d -> hooks_above n s ->
  let s' := fold_left (fun st e => orify st e (d, evs)) l s in
  flag s' = flag s /\ next s' = next s /\ hooks_above n s' /\
  forall x, ~ In x l -> hook s' x = hook s x.
Proof.
  induction l as [|e l IH]; intros s Hd Hh; simpl.
  - auto.
  - destruct (IH (orify s e (d, evs)) Hd) as (H1 & H2 & H3 & H4).
    + intros x d' l' Hx. simpl in Hx. unfold upd in Hx.
      destruct (Nat.eqb x e).
      * injection Hx as <- <-. exact Hd.
      * eapply Hh; eauto.
    + simpl in *. repeat split; auto.
      intros x Hx. rewrite H4 by tauto. simpl. unfold upd.
      replace (Nat.eqb x e) with false by (symmetry; apply Nat.eqb_neq; intuition).
      reflexivity.
Qed.

(** [OrEvent] allocates one event at [next s], keeps every callback above [n]
    and leaves every flag below [n] as it was. *)
Lemma OrEvent_low n fuel s evs d s' :
  n <= next s -> hooks_above n s -> OrEvent fuel s evs = Some (d, s') ->
  d = next s /\ next s' = S (next s) /\ hooks_above n s' /\
  (forall x, x < n -> flag s' x = flag s x) /\
  (forall x, x < n -> ~ In x evs -> hook s' x = hook s x).
Proof.
  intros Hn Hh He. unfold OrEvent in He. simpl in He.
  set (s1 := mkStore (upd (flag s) (next s) false) (upd (hook s) (next s) None)
                     (S (next s))) in *.
  assert (Hh1 : hooks_above n s1).
  { intros x d' l' Hx. simpl in Hx. unfold upd in Hx.
    destruct (Nat.eqb x (next s)); [discriminate | eapply Hh; eauto]. }
  destruct (fold_orify_facts n (next s) evs evs s1 Hn Hh1) as (F1 & F2 & F3 & F4).
  set (s2 := fold_left _ evs s1) in *.
  unfold run_changed in He.
  destruct (existsb (flag s2) evs).
  - destruct (ev_set fuel s2 (next s)) as [s3|] eqn:E; [|discriminate].
    injection He as <- <-.
    destruct (ev_set_low n _ _ _ _ F3 E) as (G1 & G2 & G3).
    repeat split; auto.
    + rewrite G2, F2. reflexivity.
    + eapply hooks_above_ext; eauto.
    + intros x Hx. rewrite G3 by exact Hx. rewrite F1. simpl. unfold upd.
      replace (Nat.eqb x (next s)) with false by (symmetry; apply Nat.eqb_neq; lia).
      reflexivity.
    + intros x Hx Hi. rewrite G1, F4 by exact Hi. simpl. unfold upd.
      replace (Nat.eqb x (next s)) with false by (symmetry; apply Nat.eqb_neq; lia).
      reflexivity.
  - destruct (ev_clear fuel s2 (next s)) as [s3|] eqn:E; [|discriminate].
    injection He as <- <-.
    destruct (ev_clear_low n _ _ _ _ F3 E) as (G1 & G2 & G3).
    repeat split; auto.
    + rewrite G2, F2. reflexivity.
    + eapply hooks_above_ext; eauto.
    + intros x Hx. rewrite G3 by exact Hx. rewrite F1. simpl. unfold upd.
      replace (Nat.eqb x (next s)) with false by (symmetry; apply Nat.eqb_neq; lia).
      reflexivity.
    + intros x Hx Hi. rewrite G1, F4 by exact Hi. simpl. unfold upd.
      replace (Nat.eqb x (next s)) with false by (symmetry; apply Nat.eqb_neq; lia).
      reflexivity.
Qed.

End EventFacts.

Module ReaderFacts.
Import Events EventFacts Reader.

#[local] Opaque fuel.

(** Name the result of the first [let*] in hypothesis [H]. *)
Ltac bind_some H E :=
  match type of H with
  | context [match ?c with Some _ => _ | None => None end] =>
      let x := fresh "s" in
      destruct c as [x|] eqn:E; [|discriminate H]
  end.

(** The reader's own events are the first five allocated; everything the
    worker allocates later (adapter events, multiplexed events) is above. *)
Definition Inv (w : world) : Prop :=
  connected (rd w) = 0 /\ close_request (rd w) = 1 /\ closed (rd w) = 2 /\
  error (rd w) = 3 /\ has_connected (rd w) = 4 /\
  5 <= next (st w) /\ hooks_above 5 (st w) /\
  (forall a b, protocol (rd w) = Some (a, b) -> 5 <= a /\ 5 <= b) /\
  (forall x, x < 5 -> x <> 1 -> hook (st w) x = None).

(** No flag among the reader's events other than [connected] goes from set
    to clear. *)
Definition smono (s s' : store) : Prop :=
  forall x, x < 5 -> x <> 0 -> flag s x = true -> flag s' x = true.

Lemma smono_refl s : smono s s.
Proof. intros x _ _ H. exact H. Qed.

Lemma smono_trans s1 s2 s3 : smono s1 s2 -> smono s2 s3 -> smono s1 s3.
Proof. intros H1 H2 x Hx Hx0 H. apply H2; auto. Qed.

Lemma set_smono f s e s' :
  hooks_above 5 s -> ev_set f s e = Some s' ->
  hook s' = hook s /\ next s' = next s /\ smono s s'.
Proof.
  intros Hh He. destruct (ev_set_low 5 _ _ _ _ Hh He) as (H1 & H2 & H3).
  repeat split; auto. intros x Hx _ Hf. rewrite H3 by exact Hx.
  destruct (Nat.eqb x e); auto.
Qed.

Lemma clear_smono f s e s' :
  (e = 0 \/ 5 <= e) -> hooks_above 5 s -> ev_clear f s e = Some s' ->
  hook s' = hook s /\ next s' = next s /\ smono s s'.
Proof.
  intros Hn Hh He. destruct (ev_clear_low 5 _ _ _ _ Hh He) as (H1 & H2 & H3).
  repeat split; auto. intros x Hx Hx0 Hf. rewrite H3 by exact Hx.
  destruct (Nat.eqb x e) eqn:Ex; auto.
  apply Nat.eqb_eq in Ex. lia.
Qed.

Lemma Inv_intro w :
  connected (rd w) = 0 -> close_request (rd w) = 1 -> closed (rd w) = 2 ->
  error (rd w) = 3 -> has_connected (rd w) = 4 -> 5 <= next (st w) ->
  hooks_above 5 (st w) ->
  (forall a b, protocol (rd w) = Some (a, b) -> 5 <= a /\ 5 <= b) ->
  (forall x, x < 5 -> x <> 1 -> hook (st w) x = None) -> Inv w.
Proof. unfold Inv. tauto. Qed.

Lemma init_Inv port t : Inv (init_world port t).
Proof.
  unfold Inv, init_world. simpl. repeat split; try lia.
  - intros x d l H. unfold upd in H. simpl in H.
    repeat destruct (Nat.eqb x _); discriminate.
  - discriminate.
  - discriminate.
  - intros x Hx _. unfold upd. simpl. repeat destruct (Nat.eqb x _); reflexivity.
Qed.

Lemma fail_with_inv w e w' :
  Inv w -> fail_with w e = Some w' ->
  Inv w' /\ smono (st w) (st w') /\ at_pc w' = PReturned /\
  error_exception (rd w') = Some e /\
  flag (st w') (error (rd w)) = true /\ flag (st w') (closed (rd w)) = true /\
  flag (st w') (connected (rd w)) = flag (st w) (connected (rd w)) /\
  flag (st w') (has_connected (rd w)) = flag (st w) (has_connected (rd w)).
Proof.
  intros (I0 & I1 & I2 & I3 & I4 & I5 & I6 & I7 & I8) H. unfold fail_with in H. simpl in H.
  bind_some H E1. rename s into s1. bind_some H E2. rename s into s2.
  injection H as <-.
  destruct (ev_set_low 5 _ _ _ _ I6 E1) as (A1 & A2 & A3).
  assert (I6' : hooks_above 5 s1) by (eapply hooks_above_ext; eauto).
  destruct (ev_set_low 5 _ _ _ _ I6' E2) as (B1 & B2 & B3).
  cbn [with_exception error closed] in *. rewrite I2, I3 in *.
  assert (F : forall x, x < 5 -> flag s2 x =
            if Nat.eqb x 2 then true else if Nat.eqb x 3 then true else flag (st w) x).
  { intros x Hx. rewrite B3, A3 by exact Hx.
    destruct (Nat.eqb x 2), (Nat.eqb x 3); reflexivity. }
  unfold Inv. cbn [st rd at_pc with_exception connected close_request closed error
                   has_connected protocol error_exception].
  rewrite I0, I4. rewrite !F by lia. cbn.
  repeat split; auto; try lia; try (edestruct I7; eauto; lia);
    try (intros x Hx Hx1; rewrite B1, A1; apply I8; assumption).
  - eapply hooks_above_ext; [exact B1|]. eapply hooks_above_ext; [exact A1|exact I6].
  - intros x Hx _ Hf. rewrite F by exact Hx.
    destruct (Nat.eqb x 2), (Nat.eqb x 3); auto.
Qed.

Lemma close_and_return_inv w w' :
  Inv w -> close_and_return w = Some w' ->
  Inv w' /\ smono (st w) (st w') /\ at_pc w' = PReturned /\
  flag (st w') (closed (rd w)) = true.
Proof.
  intros (I0 & I1 & I2 & I3 & I4 & I5 & I6 & I7 & I8) H. unfold close_and_return in H.
  bind_some H E1. rename s into s1.
  injection H as <-.
  destruct (ev_set_low 5 _ _ _ _ I6 E1) as (A1 & A2 & A3).
  split; [|split; [|split]]; cbn [st rd at_pc].
  - apply Inv_intro; cbn [st rd]; auto.
    + rewrite A2. exact I5.
    + eapply hooks_above_ext; eauto.
    + intros x Hx Hx1. rewrite A1. apply I8; assumption.
  - intros x Hx _ Hf. rewrite A3 by exact Hx. destruct (Nat.eqb x _); auto.
  - reflexivity.
  - rewrite A3 by lia. rewrite Nat.eqb_refl. reflexivity.
Qed.

Lemma goto_inv w p : Inv w -> Inv (goto w p).
Proof. unfold Inv, goto. cbn [st rd]. tauto. Qed.

Lemma close_and_exit_goto w w' :
  close_and_exit w = Some w' ->
  exists w0, close_and_return w = Some w0 /\ w' = goto w0 PExit.
Proof.
  unfold close_and_exit, close_and_return.
  destruct (ev_set fuel (st w) (closed (rd w))) as [s1|]; [|discriminate].
  intros H. injection H as <-. eexists. split; reflexivity.
Qed.

Lemma close_and_exit_inv w w' :
  Inv w -> close_and_exit w = Some w' ->
  Inv w' /\ smono (st w) (st w') /\ at_pc w' = PExit /\
  flag (st w') (closed (rd w)) = true.
Proof.
  intros HI H. destruct (close_and_exit_goto _ _ H) as (w0 & E & ->).
  destruct (close_and_return_inv _ _ HI E) as (A & B & _ & D).
  split; [apply goto_inv; exact A | split; [exact B | split; [reflexivity | exact D]]].
Qed.

Lemma new_protocol_facts n s pe s1 :
  Protocol.new_protocol s = (pe, s1) -> hooks_above n s ->
  pe = (next s, S (next s)) /\ next s1 = S (S (next s)) /\ hooks_above n s1 /\
  (forall x, x < next s -> flag s1 x = flag s x) /\
  (forall x, x < next s -> hook s1 x = hook s x).
Proof.
  unfold Protocol.new_protocol, new_event. cbn. intros H Hh. injection H as <- <-.
  repeat split; cbn.
  - intros x d l Hx. simpl in Hx. unfold upd in Hx.
    destruct (Nat.eqb x (S (next s))); [discriminate Hx|].
    destruct (Nat.eqb x (next s)); [discriminate Hx|]. eapply Hh; eauto.
  - intros x Hx. unfold upd.
    replace (Nat.eqb x (S (next s))) with false by (symmetry; apply Nat.eqb_neq; lia).
    replace (Nat.eqb x (next s)) with false by (symmetry; apply Nat.eqb_neq; lia).
    reflexivity.
  - intros x Hx. unfold upd.
    replace (Nat.eqb x (S (next s))) with false by (symmetry; apply Nat.eqb_neq; lia).
    replace (Nat.eqb x (next s)) with false by (symmetry; apply Nat.eqb_neq; lia).
    reflexivity.
Qed.

(** The reader's events [close_request], [closed], [error] and
    [has_connected] are only ever set, never cleared, by the worker, by
    [close()] and by the adapter. *)
Lemma worker_step_inv w i w' :
  Inv w -> worker_step w i = Some w' -> Inv w' /\ smono (st w) (st w').
Proof.
  intros HI H. pose proof HI as (I0 & I1 & I2 & I3 & I4 & I5 & I6 & I7 & I8).
  unfold worker_step in H.
  destruct (at_pc w) as [| | | |cev dev|dev|dev|dev| |]; destruct i as [ports| |[|e]| |];
    try discriminate H.
  - destruct (port_in _ _).
    + injection H as <-. split; [apply goto_inv; exact HI | apply smono_refl].
    + destruct (fail_with_inv _ _ _ HI H) as (? & ? & _). auto.
  - destruct (port_in _ _); injection H as <-;
      (split; [apply goto_inv; exact HI | apply smono_refl]).
  - destruct (is_set _ _).
    + destruct (close_and_return_inv _ _ HI H) as (? & ? & _). auto.
    + injection H as <-. split; [apply goto_inv; exact HI | apply smono_refl].
  - (* [with ReaderThread(...) as protocol] *)
    destruct (default_timeout_s (rd w)); [discriminate H|].
    destruct (Protocol.new_protocol (st w)) as [pe s1] eqn:Ep.
    destruct (new_protocol_facts 5 _ _ _ Ep I6) as (P1 & P2 & P3 & P4 & P5). subst pe.
    cbn [fst snd] in H.
    destruct (Protocol.connection_made fuel s1 _ _) as [s3|] eqn:Em; [|discriminate H].
    unfold Protocol.connection_made in Em.
    bind_some Em E1. rename s into s2. rename Em into E2.
    destruct (set_smono _ _ _ _ P3 E1) as (A1 & A2 & A3).
    assert (H3 : hooks_above 5 s2) by (eapply hooks_above_ext; eauto).
    destruct (clear_smono _ s2 (S (next (st w))) s3 ltac:(right; lia) H3 E2) as (B1 & B2 & B3).
    assert (H4 : hooks_above 5 s3) by (eapply hooks_above_ext; eauto).
    destruct (OrEvent fuel s3 _) as [[cev s4]|] eqn:E3; [|discriminate H].
    destruct (OrEvent fuel s4 _) as [[dev s5]|] eqn:E4; [|discriminate H].
    injection H as <-.
    assert (N3 : 5 <= next s3) by (rewrite B2, A2, P2; lia).
    destruct (OrEvent_low 5 _ _ _ _ _ N3 H4 E3) as (C1 & C2 & C3 & C4 & C5).
    assert (N4 : 5 <= next s4) by lia.
    destruct (OrEvent_low 5 _ _ _ _ _ N4 C3 E4) as (D1 & D2 & D3 & D4 & D5).
    split.
    + apply Inv_intro; cbn [st rd with_protocol connected close_request closed
                            error has_connected protocol]; auto.
      * lia.
      * intros a b Hab. injection Hab as <- <-. lia.
      * intros x Hx Hx1.
        rewrite D5, C5, B1, A1, P5 by (cbn; try rewrite I1; intuition lia).
        apply I8; assumption.
    + intros x Hx Hx0 Hf. cbn [st]. rewrite D4, C4 by exact Hx.
      apply B3; auto. apply A3; auto. rewrite P4 by lia. exact Hf.
  - destruct (fail_with_inv _ _ _ HI H) as (? & ? & _). auto.
  - destruct (_ || _); [|discriminate H].
    injection H as <-. split; [apply goto_inv; exact HI | apply smono_refl].
  - destruct (is_set _ _).
    + destruct (close_and_exit_inv _ _ HI H) as (? & ? & _). auto.
    + bind_some H E1. rename s into s1. injection H as <-.
      destruct (set_smono _ _ _ _ I6 E1) as (A1 & A2 & A3).
      split; [|exact A3].
      apply Inv_intro; cbn [st rd]; auto.
      * lia.
      * eapply hooks_above_ext; eauto.
      * intros x Hx Hx1. rewrite A1. apply I8; assumption.
  - bind_some H E1. rename s into s1. injection H as <-.
    destruct (set_smono _ _ _ _ I6 E1) as (A1 & A2 & A3).
    split; [|exact A3].
    apply Inv_intro; cbn [st rd]; auto.
    + lia.
    + eapply hooks_above_ext; eauto.
    + intros x Hx Hx1. rewrite A1. apply I8; assumption.
  - destruct (is_set w dev).
    + destruct (is_set _ _).
      * destruct (close_and_exit_inv _ _ HI H) as (? & ? & _). auto.
      * bind_some H E1. rename s into s1. injection H as <-.
        destruct (clear_smono _ _ _ _ ltac:(left; exact I0) I6 E1) as (A1 & A2 & A3).
        split.
        -- apply Inv_intro; cbn [st rd]; auto.
           ++ lia.
           ++ eapply hooks_above_ext; eauto.
           ++ intros x Hx Hx1. rewrite A1. apply I8; assumption.
        -- exact A3.
    + discriminate H.
  - injection H as <-. split; [apply goto_inv; exact HI | apply smono_refl].
Qed.

Lemma step_inv w a w' :
  Inv w -> step w a = Some w' -> Inv w' /\ smono (st w) (st w').
Proof.
  intros HI H. pose proof HI as (I0 & I1 & I2 & I3 & I4 & I5 & I6 & I7 & I8).
  destruct a as [i| |]; cbn [step] in H.
  - eapply worker_step_inv; eauto.
  - unfold close in H. bind_some H E1. rename s into s1. injection H as <-.
    destruct (set_smono _ _ _ _ I6 E1) as (A1 & A2 & A3).
    split; [|exact A3].
    apply Inv_intro; cbn [st rd set_store]; auto.
    + lia.
    + eapply hooks_above_ext; eauto.
    + intros x Hx Hx1. rewrite A1. apply I8; assumption.
  - unfold adapter_lost in H.
    destruct (protocol (rd w)) as [[a b]|] eqn:Ep; [|discriminate H].
    destruct (I7 a b eq_refl) as [Ha Hb].
    cbn [fst snd] in H.
    destruct (Protocol.connection_lost fuel (st w) exception a b) as [s2|] eqn:El;
      [|discriminate H].
    injection H as <-.
    unfold Protocol.connection_lost in El.
    destruct exception.
    + injection El as <-. destruct w as [s r p]. split; [exact HI | apply smono_refl].
    + bind_some El E1. rename s into s1. rename El into E2.
      destruct (clear_smono _ (st w) a s1 ltac:(right; exact Ha) I6 E1) as (A1 & A2 & A3).
      assert (H3 : hooks_above 5 s1) by (eapply hooks_above_ext; eauto).
      destruct (set_smono _ _ _ _ H3 E2) as (B1 & B2 & B3).
      split; [ apply Inv_intro; cbn [st rd set_store]; auto;
               [ rewrite B2, A2; exact I5
               | eapply hooks_above_ext; [|exact I6]; congruence
               | rewrite Ep; exact I7
               | intros x Hx Hx1; rewrite B1, A1; apply I8; assumption ]
             | eapply smono_trans; eauto ].
Qed.

Lemma exec_inv : forall acts w w',
  Inv w -> exec w acts = Some w' -> Inv w' /\ smono (st w) (st w').
Proof.
  induction acts as [|a acts IH]; intros w w' HI H; cbn [exec] in H.
  - injection H as <-. split; [exact HI | apply smono_refl].
  - destruct (step w a) as [w1|] eqn:E; [|discriminate H].
    destruct (step_inv _ _ _ HI E) as [HI1 M1].
    destruct (IH _ _ HI1 H) as [HI2 M2].
    split; [exact HI2 | eapply smono_trans; eauto].
Qed.

Lemma ev_set_unhooked s e :
  hook s e = None -> ev_set fuel s e = Some (raw_set s e).
Proof. intros H. change fuel with (S 15). cbn [ev_set]. cbn [raw_set hook]. rewrite H. reflexivity. Qed.

Lemma fail_with_some w e : Inv w -> exists w', fail_with w e = Some w'.
Proof.
  intros (I0 & I1 & I2 & I3 & I4 & I5 & I6 & I7 & I8). unfold fail_with.
  cbn [with_exception error closed]. rewrite I2, I3.
  rewrite ev_set_unhooked by (apply I8; lia).
  rewrite ev_set_unhooked by (cbn [raw_set hook]; apply I8; lia).
  eexists; reflexivity.
Qed.

Lemma close_and_return_some w : Inv w -> exists w', close_and_return w = Some w'.
Proof.
  intros (I0 & I1 & I2 & I3 & I4 & I5 & I6 & I7 & I8). unfold close_and_return.
  rewrite I2. rewrite ev_set_unhooked by (apply I8; lia).
  eexists; reflexivity.
Qed.

Lemma close_and_exit_eq w :
  Inv w -> close_and_exit w = Some (mkWorld (raw_set (st w) 2) (rd w) PExit).
Proof.
  intros (I0 & I1 & I2 & I3 & I4 & I5 & I6 & I7 & I8). unfold close_and_exit.
  rewrite I2. rewrite ev_set_unhooked by (apply I8; lia). reflexivity.
Qed.

Lemma returned_stuck w i : at_pc w = PReturned -> worker_step w i = None.
Proof. intros H. unfold worker_step. rewrite H. destruct i; reflexivity. Qed.

Lemma port_in_iff port ports : port_in port ports = true <-> In port ports.
Proof.
  unfold port_in. rewrite existsb_exists. split.
  - intros (x & Hx & Heq). apply String.eqb_eq in Heq. subst x. exact Hx.
  - intros H. exists port. split; [exact H | apply String.eqb_refl].
Qed.

Lemma run_from_inv port t acts w :
  run_from port t acts = Some w -> Inv w /\ smono (st (init_world port t)) (st w).
Proof. intros H. eapply exec_inv; [apply init_Inv | exact H]. Qed.

End ReaderFacts.

(** * The worker of [KeepAliveReader] *)

Module WorkerClaims.
Import Events EventFacts Reader ReaderFacts Scenarios.

(** C5: [close_request] is monotonic.  Along any interleaving of the worker
    thread with [close()] and the adapter's [connection_lost], once
    [close_request] is set it is set in every later state. *)
Theorem close_request_monotonic (port : string) (timeout : option Z)
  (acts1 acts2 : list action) (w1 w2 : world) :
  run_from port timeout acts1 = Some w1 ->
  is_set w1 (close_request (rd w1)) = true ->
  exec w1 acts2 = Some w2 ->
  is_set w2 (close_request (rd w2)) = true.
Proof.
  intros H1 Hc H2.
  destruct (run_from_inv _ _ _ _ H1) as [HI1 _].
  destruct (exec_inv _ _ _ HI1 H2) as [HI2 M].
  pose proof HI1 as (_ & C1 & _). pose proof HI2 as (_ & C2 & _).
  unfold is_set in *. rewrite C1 in Hc. rewrite C2.
  apply M; [lia | lia | exact Hc].
Qed.

(** C7: a port missing from the initial enumeration: the first step of the
    worker sets [error] (with the [NameError] attached) and [closed], leaves
    [connected] clear, and returns; the worker takes no further step. *)
Theorem missing_port_fails_fast (port : string) (timeout : option Z)
  (available_ports : list string) :
  ~ In port available_ports ->
  exists w',
    worker_step (init_world port timeout) (IEnum available_ports) = Some w' /\
    at_pc w' = PReturned /\
    is_set w' (error (rd w')) = true /\
    error_exception (rd w') =
      Some (NameError (port_missing_msg port available_ports)) /\
    is_set w' (closed (rd w')) = true /\
    is_set w' (connected (rd w')) = false /\
    is_set w' (has_connected (rd w')) = false /\
    (forall i, worker_step w' i = None).
Proof.
  intros Hp.
  assert (Hb : port_in port available_ports = false).
  { destruct (port_in port available_ports) eqn:E; [|reflexivity].
    apply port_in_iff in E. contradiction. }
  set (w := init_world port timeout).
  destruct (fail_with_some w (NameError (port_missing_msg port available_ports))
              (init_Inv port timeout)) as [w' Hw'].
  exists w'.
  assert (Hs : worker_step w (IEnum available_ports) = Some w').
  { unfold worker_step. change (at_pc w) with PStart.
    change (comport (rd w)) with port. rewrite Hb. exact Hw'. }
  destruct (fail_with_inv _ _ _ (init_Inv port timeout) Hw')
    as (HI & _ & Hpc & Hex & Her & Hcl & Hco & Hhc).
  pose proof HI as (J0 & J1 & J2 & J3 & J4 & _).
  unfold is_set. rewrite J0, J2, J3, J4.
  cbn in Her, Hcl, Hco, Hhc.
  repeat split; auto.
  - intros i. apply returned_stuck. exact Hpc.
Qed.

(** C8: a failure of [serial_for_url] is terminal: from the open point of
    any run, the worker records the exception, sets [error] and [closed],
    returns, and takes no further step. *)
Theorem open_failure_terminal (port : string) (timeout : option Z)
  (acts : list action) (w : world) (e : exc) :
  run_from port timeout acts = Some w ->
  at_pc w = POpen ->
  exists w',
    worker_step w (IOpen (OpenRaised e)) = Some w' /\
    at_pc w' = PReturned /\
    error_exception (rd w') = Some e /\
    is_set w' (error (rd w')) = true /\
    is_set w' (closed (rd w')) = true /\
    (forall i, worker_step w' i = None).
Proof.
  intros Hr Hpc.
  destruct (run_from_inv _ _ _ _ Hr) as [HI _].
  destruct (fail_with_some w e HI) as [w' Hw'].
  exists w'.
  assert (Hs : worker_step w (IOpen (OpenRaised e)) = Some w').
  { unfold worker_step. rewrite Hpc. exact Hw'. }
  destruct (fail_with_inv _ _ _ HI Hw')
    as (HI' & _ & Hpc' & Hex & Her & Hcl & _ & _).
  pose proof HI as (J0 & J1 & J2 & J3 & J4 & _).
  pose proof HI' as (K0 & K1 & K2 & K3 & K4 & _).
  unfold is_set. rewrite K2, K3. rewrite J2 in Hcl. rewrite J3 in Her.
  repeat split; auto.
  intros i. apply returned_stuck. exact Hpc'.
Qed.

Lemma close_request_monotonic_witness :
  is_set (the_world (exec (the_world (run_from "COM1" None open_then_close)) after_close))
    (close_request (rd (the_world (exec (the_world (run_from "COM1" None open_then_close))
                                    after_close)))) = true.
Proof.
  apply (close_request_monotonic "COM1" None open_then_close after_close
           (the_world (run_from "COM1" None open_then_close))); reflexivity.
Defined.

Lemma missing_port_fails_fast_witness :
  exists w',
    worker_step (init_world "COM1" None) (IEnum ["COM2"; "COM3"]) = Some w' /\
    at_pc w' = PReturned /\
    is_set w' (error (rd w')) = true /\
    error_exception (rd w') =
      Some (NameError (port_missing_msg "COM1" ["COM2"; "COM3"])) /\
    is_set w' (closed (rd w')) = true /\
    is_set w' (connected (rd w')) = false /\
    is_set w' (has_connected (rd w')) = false /\
    (forall i, worker_step w' i = None).
Proof.
  apply missing_port_fails_fast. cbn. intros [H | [H | H]]; [discriminate H | discriminate H | exact H].
Defined.

Lemma open_failure_terminal_witness :
  exists w',
    worker_step (the_world (run_from "COM1" None
                   [Worker (IEnum ["COM1"]); Worker (IEnum ["COM1"])]))
      (IOpen (OpenRaised SerialException)) = Some w' /\
    at_pc w' = PReturned /\
    error_exception (rd w') = Some SerialException /\
    is_set w' (error (rd w')) = true /\
    is_set w' (closed (rd w')) = true /\
    (forall i, worker_step w' i = None).
Proof.
  apply (open_failure_terminal "COM1" None
           [Worker (IEnum ["COM1"]); Worker (IEnum ["COM1"])]); reflexivity.
Defined.

(** The overwritten callback of [close_request] in [run]: after
    [disconnected_event = OrEvent(protocol.disconnected, self.close_request)],
    [close()] updates only [disconnected_event]; with the adapter lost and no
    [default_timeout_s], the worker stays in [connected_event.wait(None)] with
    [close_request] set. *)
Lemma close_does_not_wake_connect_wait :
  run_from "COM1" None (lost_before_connect ++ [Close])
    = Some closed_while_connecting /\
  at_pc closed_while_connecting = PWaitConnect 7 8 /\
  is_set closed_while_connecting (close_request (rd closed_while_connecting)) = true /\
  is_set closed_while_connecting 7 = false /\
  worker_step closed_while_connecting IWaitReturn = None.
Proof. repeat split; vm_compute; reflexivity. Qed.

End WorkerClaims.

(** * The multiplexer [OrEvent] and the adapter [EventProtocol] *)

Module OrEventClaims.
Import Events EventFacts Scenarios.

Lemma existsb_upd_other (f : nat -> bool) d v evs :
  ~ In d evs -> existsb (upd f d v) evs = existsb f evs.
Proof.
  induction evs as [|x evs IH]; intros Hn; [reflexivity|]. cbn.
  unfold upd at 1.
  replace (Nat.eqb x d) with false by (symmetry; apply Nat.eqb_neq; intros ->;
                                        apply Hn; left; reflexivity).
  rewrite IH by (intros H; apply Hn; right; exact H). reflexivity.
Qed.

(** When a source's current callback is the multiplexer's own (no later
    [OrEvent] has taken over the source), [set()] and [clear()] on the source
    recompute the derived event inside the same call. *)
Lemma own_callback_recomputes f s e d evs :
  hook s e = Some (d, evs) -> hook s d = None -> ~ In d evs ->
  (forall s', ev_set (S (S f)) s e = Some s' -> flag s' d = existsb (flag s') evs) /\
  (forall s', ev_clear (S (S f)) s e = Some s' -> flag s' d = existsb (flag s') evs).
Proof.
  intros He Hd Hn. split; intros s' H; cbn [ev_set ev_clear] in H;
    cbn [raw_set raw_clear hook] in H; rewrite He in H; unfold run_changed in H;
    (destruct (existsb _ evs) eqn:Ex;
     cbn [ev_set ev_clear raw_set raw_clear hook] in H; rewrite Hd in H;
     injection H as <-; cbn [flag raw_set raw_clear] in *;
     rewrite existsb_upd_other by exact Hn;
     rewrite Ex; cbv [upd]; rewrite Nat.eqb_refl; reflexivity).
Qed.

(** C1: with [d1 = OrEvent(a, e)], a later [OrEvent(b, e)] replaces
    [e.changed]; after [e.clear()] the derived [d1] stays set although
    neither [a] nor [e] is set. *)
Lemma shared_source_leaves_first_stale :
  shared_then_clear <> None /\
  flag (the_store shared_then_clear) 3 = true /\
  existsb (flag (the_store shared_then_clear)) [0; 1] = false.
Proof. split; [vm_compute; discriminate|]. split; vm_compute; reflexivity. Qed.

(** C2: [d1 = OrEvent(a, e)] then [d2 = OrEvent(b, e)]; after [e.set()]
    only [d2] is recomputed: [d1] stays clear although [e] is set. *)
Lemma overlapping_first_not_updated :
  overlapping_then_set <> None /\
  flag (the_store overlapping_then_set) 2 = true /\
  flag (the_store overlapping_then_set) 4 = true /\
  flag (the_store overlapping_then_set) 3 = false /\
  existsb (flag (the_store overlapping_then_set)) [0; 2] = true.
Proof. split; [vm_compute; discriminate|]. repeat split; vm_compute; reflexivity. Qed.

Lemma handle_all_app fuel s pe ts t :
  Protocol.handle_all fuel s pe (ts ++ [t]) =
  let* s1 := Protocol.handle_all fuel s pe ts in
  Protocol.handle fuel s1 pe t.
Proof.
  revert s. induction ts as [|t0 ts IH]; intros s; cbn.
  - destruct (Protocol.handle fuel s pe t); reflexivity.
  - destruct (Protocol.handle fuel s pe t0); [apply IH | reflexivity].
Qed.

Lemma handle_hooks n fuel s pe t s' :
  hooks_above n s -> Protocol.handle fuel s pe t = Some s' -> hook s' = hook s.
Proof.
  intros Hh H. destruct t; cbn in H.
  - unfold Protocol.connection_made in H.
    destruct (ev_set fuel s (fst pe)) as [s1|] eqn:E1; [|discriminate H].
    destruct (ev_set_low n _ _ _ _ Hh E1) as (A1 & _).
    assert (Hh1 : hooks_above n s1) by (eapply hooks_above_ext; eauto).
    destruct (ev_clear_low n _ _ _ _ Hh1 H) as (B1 & _). congruence.
  - unfold Protocol.connection_lost in H.
    destruct exception; [injection H as <-; reflexivity|].
    destruct (ev_clear fuel s (fst pe)) as [s1|] eqn:E1; [|discriminate H].
    destruct (ev_clear_low n _ _ _ _ Hh E1) as (A1 & _).
    assert (Hh1 : hooks_above n s1) by (eapply hooks_above_ext; eauto).
    destruct (ev_set_low n _ _ _ _ Hh1 H) as (B1 & _). congruence.
Qed.

Lemma handle_all_hooks n fuel pe ts : forall s s',
  hooks_above n s -> Protocol.handle_all fuel s pe ts = Some s' -> hook s' = hook s.
Proof.
  induction ts as [|t ts IH]; intros s s' Hh H; cbn in H.
  - injection H as <-. reflexivity.
  - destruct (Protocol.handle fuel s pe t) as [s1|] eqn:E; [|discriminate H].
    pose proof (handle_hooks n _ _ _ _ _ Hh E) as H1.
    rewrite (IH s1 s') by (auto; eapply hooks_above_ext; eauto). exact H1.
Qed.

(** C9: [connection_lost] with an exception re-raises it at
    [super().connection_lost(exception)] before touching the events: for an
    adapter whose two events are below every multiplexed event (as [run]
    allocates them), after [connection_made] and then [connection_lost] of an
    I/O error, [connected] is still set and [disconnected] still clear. *)
Theorem error_loss_keeps_connected (n : nat) (s s' : store) (c d : nat)
  (ts : list Protocol.transport_event) :
  c < n -> d < n -> c <> d -> hooks_above n s ->
  Protocol.handle_all max_hook_depth s (c, d)
    (ts ++ [Protocol.Made; Protocol.Lost true]) = Some s' ->
  flag s' c = true /\ flag s' d = false.
Proof.
  intros Hc Hd Hcd Hh H.
  replace (ts ++ [Protocol.Made; Protocol.Lost true])%list
    with ((ts ++ [Protocol.Made]) ++ [Protocol.Lost true])%list in H
    by (rewrite <- app_assoc; reflexivity).
  rewrite handle_all_app in H.
  destruct (Protocol.handle_all max_hook_depth s (c, d) (ts ++ [Protocol.Made])%list)
    as [s2|] eqn:E2; [|discriminate H].
  cbn in H. injection H as <-.
  rewrite handle_all_app in E2.
  destruct (Protocol.handle_all max_hook_depth s (c, d) ts) as [s1|] eqn:E;
    [|discriminate E2].
  assert (Hh1 : hooks_above n s1)
    by (eapply hooks_above_ext; [eapply handle_all_hooks; eauto | exact Hh]).
  assert (Hcd' : Nat.eqb c d = false) by (apply Nat.eqb_neq; auto).
  cbn in E2. unfold Protocol.connection_made in E2. cbn [fst snd] in E2.
  destruct (ev_set max_hook_depth s1 c) as [s3|] eqn:E1; [|discriminate E2].
  destruct (ev_set_low n _ _ _ _ Hh1 E1) as (A1 & _ & A3).
  assert (Hh3 : hooks_above n s3) by (eapply hooks_above_ext; eauto).
  destruct (ev_clear_low n _ _ _ _ Hh3 E2) as (_ & _ & B3).
  split.
  - rewrite B3, Hcd', A3, Nat.eqb_refl by exact Hc. reflexivity.
  - rewrite B3, Nat.eqb_refl by exact Hd. reflexivity.
Qed.

Lemma error_loss_keeps_connected_witness :
  flag adapter_after_failure 0 = true /\ flag adapter_after_failure 1 = false.
Proof.
  apply (error_loss_keeps_connected 2 adapter_store adapter_after_failure 0 1 []).
  - lia.
  - lia.
  - lia.
  - intros x d l H. vm_compute in H.
    destruct x as [|[|x]]; discriminate H.
  - vm_compute. reflexivity.
Defined.

End OrEventClaims.

(** * [request] and [KeepAliveReader.request] *)

Module RequestClaims.
Import Request.

(** C6: with [poll=True] and the default [timeout_s=None], the loop
    condition [time.time() - start_time < timeout_s] compares a float with
    [None]: the call raises [TypeError] at its first check, whatever the
    queue holds. *)
Theorem poll_without_timeout_raises {A : Type}
  (device_write : string -> Z -> outcome bool) (response_queue : queue_trace A)
  (payload : string) (t0 t1 start_time now : Z) (clock : list Z) (b : bool) :
  device_write payload t0 = Done t1 b ->
  request device_write response_queue payload None true
    (start_time :: now :: clock) t0 = Some (Raised now TypeError).
Proof. intros H. unfold request. rewrite H. reflexivity. Qed.

Lemma poll_without_timeout_raises_witness :
  request (fun _ t => Done t true) [(0%Z, 42)] "ping" None true [0; 1]%Z 0%Z
  = Some (Raised 1%Z TypeError).
Proof. apply (poll_without_timeout_raises _ _ _ 0 0 0 1 [] true). reflexivity. Defined.

(** With [poll=False] the same call returns the queued response. *)
Lemma blocking_without_timeout_returns :
  request (fun _ t => Done t true) [(0%Z, 42)] "ping" None false [] 0%Z
  = Some (Done 0%Z 42).
Proof. reflexivity. Qed.

(** C10: when the manager's [connected] stays clear, [request] waits
    [timeout_s] on it, then [self.write(payload)] waits on it again with no
    timeout: the call never returns, for every [timeout_s]. *)
Theorem reader_request_write_unbounded {A : Type} (has_protocol : bool)
  (response_queue : queue_trace A) (payload : string) (timeout_s : Z)
  (poll : bool) (clock : list Z) (t0 : Z) :
  reader_request None has_protocol response_queue payload (Some timeout_s) poll
    clock t0 = Some Hangs.
Proof.
  unfold reader_request, request, reader_write. cbn.
  destruct (timeout_s <=? 0)%Z; reflexivity.
Qed.

End RequestClaims.

(** * [get_serial_ports] and [SerialDevice.get_port] *)

Module ConnectionFacts.
Import Connections.

(** The name test of [get_serial_ports] outside Windows. *)
Definition usb_or_acm (p : string) : bool :=
  contains "usb" (lower p) || contains "acm" (lower p).

Definition str_le (a b : string) : Prop := String.leb a b = true.

Lemma collect_ports_filter windows only_available test_connection : forall cs,
  collect_ports windows only_available test_connection cs =
  (filter (fun p => (windows || usb_or_acm p) && (negb only_available || test_connection p)) cs,
   if only_available then filter (fun p => windows || usb_or_acm p) cs else []).
Proof.
  induction cs as [|p cs IH]; [destruct only_available; reflexivity|].
  cbn [collect_ports filter]. rewrite IH. unfold append_port. fold (usb_or_acm p).
  destruct windows, only_available, (usb_or_acm p), (test_connection p); reflexivity.
Qed.

Lemma insert_sorted_perm x : forall l, Permutation (insert_sorted x l) (x :: l).
Proof.
  induction l as [|y l IH]; cbn; [reflexivity|].
  destruct (String.leb x y); [reflexivity|].
  rewrite IH. apply perm_swap.
Qed.

Lemma sorted_perm : forall l, Permutation (sorted l) l.
Proof.
  induction l as [|x l IH]; cbn; [reflexivity|].
  rewrite insert_sorted_perm. apply perm_skip. exact IH.
Qed.

Lemma insert_sorted_hd y x l :
  HdRel str_le y l -> str_le y x -> HdRel str_le y (insert_sorted x l).
Proof.
  intros H Hyx. destruct l as [|z l]; cbn.
  - constructor. exact Hyx.
  - destruct (String.leb x z); constructor; [exact Hyx|].
    inversion H. assumption.
Qed.

Lemma insert_sorted_sorted x : forall l,
  Sorted str_le l -> Sorted str_le (insert_sorted x l).
Proof.
  induction l as [|y l IH]; intros H; cbn.
  - repeat constructor.
  - destruct (String.leb x y) eqn:Exy.
    + constructor; [exact H | constructor; exact Exy].
    + apply Sorted_inv in H as [Hl Hy].
      constructor; [apply IH; exact Hl|].
      apply insert_sorted_hd; [exact Hy|].
      destruct (String.leb_total x y) as [E | E]; [congruence | exact E].
Qed.

Lemma sorted_sorted : forall l, Sorted str_le (sorted l).
Proof.
  induction l as [|x l IH]; cbn; [constructor|].
  apply insert_sorted_sorted. exact IH.
Qed.

(** [get_serial_ports(sort_ports=False, only_available)] keeps the order of
    [lsp.comports()] and returns exactly the ports that are on Windows or
    whose lowercased name contains [usb] or [acm], and, with
    [only_available], for which [test_connection] returns [True]. *)
Theorem get_serial_ports_filter (windows : bool) (comports : list string)
  (test_connection : string -> bool) (only_available : bool) :
  fst (get_serial_ports windows comports test_connection false only_available) =
  filter (fun p => (windows || usb_or_acm p) &&
                   (negb only_available || test_connection p)) comports.
Proof. unfold get_serial_ports. rewrite collect_ports_filter. reflexivity. Qed.

(** [get_serial_ports] opens a port with [test_connection] only when
    [only_available] is true, and then it opens every candidate port
    (every port on Windows, elsewhere every port whose name contains [usb]
    or [acm]), in enumeration order, whatever [sort_ports]. *)
Theorem get_serial_ports_tested (windows : bool) (comports : list string)
  (test_connection : string -> bool) (sort_ports only_available : bool) :
  snd (get_serial_ports windows comports test_connection sort_ports only_available) =
  if only_available then filter (fun p => windows || usb_or_acm p) comports else [].
Proof. unfold get_serial_ports. rewrite collect_ports_filter. reflexivity. Qed.

(** With [sort_ports=True] the result is in code-point order and holds the
    same ports as with [sort_ports=False]. *)
Theorem get_serial_ports_sorted (windows : bool) (comports : list string)
  (test_connection : string -> bool) (only_available : bool) :
  Sorted str_le (fst (get_serial_ports windows comports test_connection true only_available)) /\
  Permutation (fst (get_serial_ports windows comports test_connection true only_available))
              (fst (get_serial_ports windows comports test_connection false only_available)).
Proof.
  unfold get_serial_ports. rewrite collect_ports_filter. cbn [fst].
  split; [apply sorted_sorted | apply sorted_perm].
Qed.

Lemma get_port_candidates windows comports port_available :
  fst (get_serial_ports windows comports port_available true false) =
  sorted (filter (fun p => windows || usb_or_acm p) comports).
Proof.
  unfold get_serial_ports. rewrite collect_ports_filter. cbn [fst].
  f_equal. apply filter_ext. intros p. rewrite andb_true_r. reflexivity.
Qed.


Lemma get_port_loop_found test delay p : forall ports tr,
  get_port_loop test delay ports = (PortFound p, tr) ->
  exists pre post, ports = (pre ++ p :: post)%list /\
    Forall (fun q => test q = Refuses) pre /\ test p = Accepts /\
    (pre = [] \/ sleep_returns delay = true) /\
    tr = (flat_map (fun q => [Tested q; Slept]) pre ++ [Tested p])%list.
Proof.
  induction ports as [|q ports IH]; intros tr; cbn; [discriminate|].
  destruct (test q) eqn:Eq.
  - intros H. injection H as <- <-. exists [], ports.
    split; [reflexivity|]. split; [constructor|]. split; [assumption|].
    split; [left; reflexivity | reflexivity].
  - destruct (sleep_returns delay) eqn:Es; [|discriminate].
    destruct (get_port_loop test delay ports) as [r tr'] eqn:E. intros H. injection H as -> <-.
    destruct (IH tr' eq_refl) as (pre & post & -> & H1 & H2 & _ & ->).
    exists (q :: pre), post.
    split; [reflexivity|]. split; [constructor; assumption|]. split; [assumption|].
    split; [right; reflexivity | reflexivity].
  - discriminate.
Qed.



(** [get_port] returns the first port, in sorted order, of the candidate
    ports for which [test_connection] returns [True]; it has tested each
    earlier one and slept once after each of them, each [sleep] returning. *)
Theorem get_port_first_accepting (windows : bool) (comports : list string)
  (port_available : string -> bool) (test_connection : string -> Z -> test_result)
  (baud_rate : Z) (serial_test_delay : option Z) (p : string)
  (trace : list get_port_event) :
  get_port windows comports port_available test_connection baud_rate serial_test_delay
    = (PortFound p, trace) ->
  exists pre post,
    sorted (filter (fun q => windows || usb_or_acm q) comports) = (pre ++ p :: post)%list /\
    Forall (fun q => test_connection q baud_rate = Refuses) pre /\
    test_connection p baud_rate = Accepts /\
    (pre = [] \/ sleep_returns serial_test_delay = true) /\
    trace = (flat_map (fun q => [Tested q; Slept]) pre ++ [Tested p])%list.
Proof.
  unfold get_port. rewrite get_port_candidates. apply get_port_loop_found.
Qed.

End ConnectionFacts.

(** * [KeepAliveReader.run] over [get_serial_ports] *)

Module PortCheckFacts.
Import Events Reader ReaderFacts Connections ConnectionFacts.

Lemma port_in_filter_false port (f : string -> bool) ports :
  f port = false -> port_in port (filter f ports) = false.
Proof.
  intros Hf. destruct (port_in port (filter f ports)) eqn:E; [|reflexivity].
  apply port_in_iff, filter_In in E. destruct E as [_ E]. congruence.
Qed.

(** Outside Windows, [run] checks the port against
    [get_serial_ports(sort_ports=False, only_available=True)], which lists
    only names containing [usb] or [acm]: for any other port name (e.g.
    [/dev/ttyS0]), present and openable or not, the first step of the worker
    records the [NameError], sets [error] and [closed], and returns. *)
Theorem run_rejects_non_usb_port (port : string) (timeout : option Z)
  (comports : list string) (test_connection : string -> bool) :
  usb_or_acm port = false ->
  exists w',
    worker_step (init_world port timeout)
      (IEnum (fst (get_serial_ports false comports test_connection false true))) = Some w' /\
    at_pc w' = PReturned /\
    error_exception (rd w') =
      Some (NameError (port_missing_msg port
                         (fst (get_serial_ports false comports test_connection false true)))) /\
    is_set w' (error (rd w')) = true /\
    is_set w' (closed (rd w')) = true /\
    is_set w' (connected (rd w')) = false.
Proof.
  intros Hu.
  set (ports := fst (get_serial_ports false comports test_connection false true)).
  assert (Hb : port_in port ports = false).
  { unfold ports. rewrite get_serial_ports_filter. apply port_in_filter_false.
    rewrite Hu. reflexivity. }
  set (w := init_world port timeout).
  destruct (fail_with_some w (NameError (port_missing_msg port ports)) (init_Inv port timeout))
    as [w' Hw'].
  exists w'.
  destruct (fail_with_inv _ _ _ (init_Inv port timeout) Hw')
    as (HI & _ & Hpc & Hex & Her & Hcl & Hco & _).
  pose proof HI as (J0 & J1 & J2 & J3 & J4 & _).
  unfold is_set. rewrite J0, J2, J3. cbn in Her, Hcl, Hco.
  split; [|repeat split; auto].
  unfold worker_step. change (at_pc w) with PStart. change (comport (rd w)) with port.
  rewrite Hb. exact Hw'.
Qed.

Lemma run_rejects_non_usb_port_witness :
  exists w',
    worker_step (init_world "/dev/ttyS0" None)
      (IEnum (fst (get_serial_ports false ["/dev/ttyS0"; "/dev/ttyUSB0"] (fun _ => true) false true)))
      = Some w' /\
    at_pc w' = PReturned /\
    error_exception (rd w') =
      Some (NameError (port_missing_msg "/dev/ttyS0"
                         (fst (get_serial_ports false ["/dev/ttyS0"; "/dev/ttyUSB0"]
                                 (fun _ => true) false true)))) /\
    is_set w' (error (rd w')) = true /\
    is_set w' (closed (rd w')) = true /\
    is_set w' (connected (rd w')) = false.
Proof.
  apply run_rejects_non_usb_port. vm_compute. reflexivity.
Defined.

Lemma get_port_first_accepting_witness :
  exists pre post,
    sorted (filter (fun q => false || usb_or_acm q)
              ["/dev/ttyS0"; "/dev/ttyUSB1"; "/dev/ttyACM0"]) =
      (pre ++ "/dev/ttyUSB1" :: post)%list /\
    Forall (fun q => (fun p (_ : Z) => if String.eqb p "/dev/ttyUSB1" then Accepts else Refuses)
                       q 9600%Z = Refuses) pre /\
    (fun p (_ : Z) => if String.eqb p "/dev/ttyUSB1" then Accepts else Refuses)
      "/dev/ttyUSB1" 9600%Z = Accepts /\
    (pre = [] \/ sleep_returns (Some 0%Z) = true) /\
    [Tested "/dev/ttyACM0"; Slept; Tested "/dev/ttyUSB1"] =
      (flat_map (fun q => [Tested q; Slept]) pre ++ [Tested "/dev/ttyUSB1"])%list.
Proof.
  apply (get_port_first_accepting false ["/dev/ttyS0"; "/dev/ttyUSB1"; "/dev/ttyACM0"]
           (fun _ => true)
           (fun p _ => if String.eqb p "/dev/ttyUSB1" then Accepts else Refuses) 9600%Z
           (Some 0%Z)).
  vm_compute. reflexivity.
Defined.

End PortCheckFacts.

(** * [OrEvent] over sources it does not share *)

Module OrEventFacts.
Import Events EventFacts EventCalls.

Lemma existsb_ext_in (f g : nat -> bool) : forall l,
  (forall y, In y l -> f y = g y) -> existsb f l = existsb g l.
Proof.
  induction l as [|y l IH]; intros H; cbn; [reflexivity|].
  rewrite H by (left; reflexivity). rewrite IH by (intros z Hz; apply H; right; exact Hz).
  reflexivity.
Qed.

Lemma existsb_eqb_in x l : existsb (Nat.eqb x) l = true <-> In x l.
Proof.
  rewrite existsb_exists. split.
  - intros (y & Hy & E). apply Nat.eqb_eq in E. subst y. exact Hy.
  - intros H. exists x. split; [exact H | apply Nat.eqb_refl].
Qed.

Lemma fold_orify_hook cb : forall l s,
  flag (fold_left (fun st e => orify st e cb) l s) = flag s /\
  next (fold_left (fun st e => orify st e cb) l s) = next s /\
  forall x, hook (fold_left (fun st e => orify st e cb) l s) x =
            if existsb (Nat.eqb x) l then Some cb else hook s x.
Proof.
  induction l as [|e l IH]; intros s; cbn [fold_left existsb]; [auto|].
  destruct (IH (orify s e cb)) as (H1 & H2 & H3).
  rewrite H1, H2. split; [reflexivity|]. split; [reflexivity|].
  intros x. rewrite H3. cbn [orify hook]. unfold upd.
  destruct (Nat.eqb x e), (existsb (Nat.eqb x) l); reflexivity.
Qed.

Section Tracking.
Variables (d : nat) (events : list nat).

(** The multiplexed event and its sources. *)
Definition inB (y : nat) : Prop := y = d \/ In y events.

(** Every callback installed on an event other than a source updates an
    event that is neither [d] nor a source. *)
Definition separated (s : store) : Prop :=
  forall x d' l', hook s x = Some (d', l') -> ~ In x events -> ~ inB d'.

(** Every source calls the closure [changed] of this multiplexer. *)
Definition sources_hooked (s : store) : Prop :=
  forall e, In e events -> hook s e = Some (d, events).

Definition tracked (s : store) : Prop :=
  separated s /\ sources_hooked s /\ flag s d = existsb (flag s) events.

Lemma out_calls : forall fuel,
  (forall s x s', separated s -> ~ In x events -> ev_set fuel s x = Some s' ->
     hook s' = hook s /\
     forall y, inB y -> flag s' y = (if Nat.eqb y x then true else flag s y)) /\
  (forall s x s', separated s -> ~ In x events -> ev_clear fuel s x = Some s' ->
     hook s' = hook s /\
     forall y, inB y -> flag s' y = (if Nat.eqb y x then false else flag s y)).
Proof.
  induction fuel as [|f [IHs IHc]]; split; intros s x s' Hs Hx He; try discriminate;
    cbn [ev_set ev_clear] in He; cbn [raw_set raw_clear hook] in He;
    (destruct (hook s x) as [[d' l']|] eqn:Hk;
     [ pose proof (Hs x d' l' Hk Hx) as Hd';
       assert (Hd'e : ~ In d' events) by (intros H; apply Hd'; right; exact H);
       unfold run_changed in He;
       destruct (existsb _ l');
       [ match type of He with ev_set _ ?s0 _ = _ =>
           destruct (IHs s0 d' s' Hs Hd'e He) as [H1 H2] end
       | match type of He with ev_clear _ ?s0 _ = _ =>
           destruct (IHc s0 d' s' Hs Hd'e He) as [H1 H2] end ];
       (split; [exact H1|]; intros y Hy; rewrite H2 by exact Hy;
        replace (Nat.eqb y d') with false
          by (symmetry; apply Nat.eqb_neq; intros ->; exact (Hd' Hy));
        reflexivity)
     | injection He as <-; split; [reflexivity|]; intros y _; reflexivity ]).
Qed.

Lemma src_call (set : bool) f s x s' :
  ~ In d events -> separated s -> sources_hooked s -> In x events ->
  (if set then ev_set (S f) s x else ev_clear (S f) s x) = Some s' ->
  hook s' = hook s /\ flag s' d = existsb (flag s') events.
Proof.
  intros Hd Hs Hh Hx He.
  assert (Hk : hook s x = Some (d, events)) by (apply Hh; exact Hx).
  assert (K : forall s1 s2, hook s1 = hook s -> 
            run_changed (ev_set f) (ev_clear f) s1 (d, events) = Some s2 ->
            hook s2 = hook s /\ flag s2 d = existsb (flag s2) events).
  { intros s1 s2 Hs1 Hr. unfold run_changed in Hr.
    assert (Hsep : separated s1) by (unfold separated; rewrite Hs1; exact Hs).
    destruct (existsb (flag s1) events) eqn:Ex.
    - destruct (proj1 (out_calls f) _ _ _ Hsep Hd Hr) as [H1 H2].
      split; [congruence|].
      rewrite H2, Nat.eqb_refl by (left; reflexivity).
      rewrite <- Ex. apply existsb_ext_in. intros y Hy.
      rewrite H2 by (right; exact Hy).
      replace (Nat.eqb y d) with false
        by (symmetry; apply Nat.eqb_neq; intros ->; exact (Hd Hy)).
      reflexivity.
    - destruct (proj2 (out_calls f) _ _ _ Hsep Hd Hr) as [H1 H2].
      split; [congruence|].
      rewrite H2, Nat.eqb_refl by (left; reflexivity).
      rewrite <- Ex. apply existsb_ext_in. intros y Hy.
      rewrite H2 by (right; exact Hy).
      replace (Nat.eqb y d) with false
        by (symmetry; apply Nat.eqb_neq; intros ->; exact (Hd Hy)).
      reflexivity. }
  destruct set; cbn [ev_set ev_clear] in He; cbn [raw_set raw_clear hook] in He;
    rewrite Hk in He; (eapply K; [|exact He]; reflexivity).
Qed.

Lemma tracked_call (fuel : nat) (s s' : store) (c : ev_call) :
  ~ In d events -> call_target c <> d -> tracked s ->
  apply_calls fuel s [c] = Some s' -> tracked s'.
Proof.
  intros Hd Hc (Hs & Hh & Hv) H.
  assert (G : forall (set : bool) x s1,
            x <> d ->
            (if set then ev_set fuel s x else ev_clear fuel s x) = Some s1 ->
            tracked s1).
  { intros set x s1 Hxd E.
    destruct (in_dec Nat.eq_dec x events) as [Hx | Hx].
    - destruct fuel as [|f]; [destruct set; discriminate E|].
      destruct (src_call set f s x s1 Hd Hs Hh Hx E) as [H1 H2].
      split; [unfold separated; rewrite H1; exact Hs|].
      split; [unfold sources_hooked; rewrite H1; exact Hh | exact H2].
    - assert (K : hook s1 = hook s /\ forall y, inB y -> flag s1 y = flag s y).
      { destruct set;
          [ destruct (proj1 (out_calls fuel) _ _ _ Hs Hx E) as [H1 H2]
          | destruct (proj2 (out_calls fuel) _ _ _ Hs Hx E) as [H1 H2] ];
          (split; [exact H1|]; intros y Hy; rewrite H2 by exact Hy;
           replace (Nat.eqb y x) with false; [reflexivity|];
           symmetry; apply Nat.eqb_neq; intros ->;
           destruct Hy as [Hy | Hy]; [exact (Hxd Hy) | exact (Hx Hy)]). }
      destruct K as [H1 H2].
      split; [unfold separated; rewrite H1; exact Hs|].
      split; [unfold sources_hooked; rewrite H1; exact Hh|].
      rewrite H2 by (left; reflexivity). rewrite Hv.
      apply existsb_ext_in. intros y Hy. symmetry. apply H2. right. exact Hy. }
  destruct c as [x|x]; cbn [apply_calls call_target] in H, Hc.
  - destruct (ev_set fuel s x) as [s1|] eqn:E; [|discriminate H].
    injection H as <-. exact (G true x s1 Hc E).
  - destruct (ev_clear fuel s x) as [s1|] eqn:E; [|discriminate H].
    injection H as <-. exact (G false x s1 Hc E).
Qed.

Lemma apply_calls_tracked fuel : forall calls s s',
  ~ In d events -> ~ In d (map call_target calls) -> tracked s ->
  apply_calls fuel s calls = Some s' -> tracked s'.
Proof.
  induction calls as [|c calls IH]; intros s s' Hd Hc Ht H.
  - injection H as <-. exact Ht.
  - assert (E : apply_calls fuel s (c :: calls) =
                  match apply_calls fuel s [c] with
                  | Some s1 => apply_calls fuel s1 calls
                  | None => None
                  end).
    { destruct c as [x|x]; cbn [apply_calls];
        [destruct (ev_set fuel s x) | destruct (ev_clear fuel s x)]; reflexivity. }
    rewrite E in H.
    destruct (apply_calls fuel s [c]) as [s1|] eqn:E1; [|discriminate H].
    apply (IH s1 s' Hd).
    + intros Hi. apply Hc. right. exact Hi.
    + apply (tracked_call fuel s s1 c Hd); auto.
      intros Hcd. apply Hc. left. exact Hcd.
    + exact H.
Qed.

End Tracking.

Lemma OrEvent_new (fuel : nat) (s : store) (events : list nat) :
  0 < fuel ->
  (forall e, In e events -> e < next s) ->
  exists s',
    OrEvent fuel s events = Some (next s, s') /\
    flag s' (next s) = existsb (flag s) events /\
    (forall x, x <> next s -> flag s' x = flag s x) /\
    (forall e, In e events -> hook s' e = Some (next s, events)) /\
    (forall x, x <> next s -> ~ In x events -> hook s' x = hook s x) /\
    hook s' (next s) = None /\
    next s' = S (next s).
Proof.
  intros Hf Hev. destruct fuel as [|f]; [lia|].
  set (s1 := mkStore (upd (flag s) (next s) false) (upd (hook s) (next s) None) (S (next s))).
  destruct (fold_orify_hook (next s, events) events s1) as (F1 & F2 & F3).
  set (s2 := fold_left _ events s1) in *.
  assert (Hnin : ~ In (next s) events) by (intros H; specialize (Hev _ H); lia).
  assert (Hd2 : hook s2 (next s) = None).
  { rewrite F3. destruct (existsb (Nat.eqb (next s)) events) eqn:E.
    - apply existsb_eqb_in in E. contradiction.
    - cbn. unfold upd. rewrite Nat.eqb_refl. reflexivity. }
  assert (Hex : existsb (flag s2) events = existsb (flag s) events).
  { rewrite F1. apply existsb_ext_in. intros y Hy. cbn. unfold upd.
    replace (Nat.eqb y (next s)) with false
      by (symmetry; apply Nat.eqb_neq; intros ->; exact (Hnin Hy)).
    reflexivity. }
  set (v := existsb (flag s) events) in *.
  exists (mkStore (upd (flag s2) (next s) v) (hook s2) (next s2)).
  split.
  - unfold OrEvent. cbn [new_event]. fold s1. fold s2.
    unfold run_changed. rewrite Hex.
    destruct v eqn:Ev; cbn [ev_set ev_clear raw_set raw_clear hook]; rewrite Hd2; reflexivity.
  - cbn [flag hook next]. unfold upd at 1. rewrite Nat.eqb_refl.
    split; [reflexivity|]. split.
    + intros x Hx. unfold upd. rewrite (proj2 (Nat.eqb_neq x (next s)) Hx).
      rewrite F1. cbn. unfold upd. rewrite (proj2 (Nat.eqb_neq x (next s)) Hx). reflexivity.
    + split; [intros e He; rewrite F3; apply existsb_eqb_in in He; rewrite He; reflexivity|].
      split; [|split; [exact Hd2 | rewrite F2; reflexivity]].
      intros x Hx Hxe. rewrite F3.
      destruct (existsb (Nat.eqb x) events) eqn:E; [apply existsb_eqb_in in E; contradiction|].
      cbn. unfold upd. rewrite (proj2 (Nat.eqb_neq x (next s)) Hx). reflexivity.
Qed.

(** [OrEvent( *events)] over existing events returns a fresh event whose
    initial state is [any(e.is_set() for e in events)], changes the state of
    no other event, and makes every source call its [changed]; callbacks of
    events that are not sources are kept. *)
Theorem OrEvent_initial (fuel : nat) (s : store) (events : list nat) :
  0 < fuel ->
  (forall e, In e events -> e < next s) ->
  exists s',
    OrEvent fuel s events = Some (next s, s') /\
    flag s' (next s) = existsb (flag s) events /\
    (forall x, x <> next s -> flag s' x = flag s x) /\
    (forall e, In e events -> hook s' e = Some (next s, events)) /\
    (forall x, x <> next s -> ~ In x events -> hook s' x = hook s x) /\
    hook s' (next s) = None /\
    next s' = S (next s).
Proof. apply OrEvent_new. Qed.

(** A multiplexer keeps [d.is_set() == any(e.is_set() for e in events)]
    through every sequence of [set()] / [clear()] calls on events other than
    [d], as long as no other event's callback updates one of its sources
    (in particular, no later [OrEvent] has taken over a source) and every
    callback refers to an event that existed when it was built. *)
Theorem OrEvent_tracks (s s1 s2 : store) (events : list nat) (d : nat)
  (calls : list ev_call) (fuel : nat) :
  (forall e, In e events -> e < next s) ->
  (forall x d' l', hook s x = Some (d', l') -> ~ In x events ->
     d' < next s /\ ~ In d' events) ->
  OrEvent max_hook_depth s events = Some (d, s1) ->
  ~ In d (map call_target calls) ->
  apply_calls fuel s1 calls = Some s2 ->
  flag s2 d = existsb (flag s2) events.
Proof.
  intros Hev Hsep Ho Hc Ha.
  destruct (OrEvent_new max_hook_depth s events ltac:(cbv; lia) Hev)
    as (s' & Ho' & V1 & V2 & V3 & V4 & V5 & V6).
  rewrite Ho' in Ho. injection Ho as <- <-.
  assert (Hnin : ~ In (next s) events) by (intros H; specialize (Hev _ H); lia).
  assert (Ht : tracked (next s) events s').
  { split; [|split].
    - intros x d' l' Hx Hxe.
      destruct (Nat.eq_dec x (next s)) as [-> | Hxn]; [congruence|].
      rewrite V4 in Hx by assumption.
      destruct (Hsep x d' l' Hx Hxe) as [Hlt Hd'].
      intros [Heq | Hin]; [lia | exact (Hd' Hin)].
    - exact V3.
    - rewrite V1. apply existsb_ext_in. intros y Hy. symmetry. apply V2.
      intros ->. exact (Hnin Hy). }
  exact (proj2 (proj2 (apply_calls_tracked _ _ fuel calls s' s2 Hnin Hc Ht Ha))).
Qed.

Lemma OrEvent_initial_witness :
  exists s',
    OrEvent max_hook_depth MoreScenarios.three_events [0; 1] =
      Some (next MoreScenarios.three_events, s') /\
    flag s' (next MoreScenarios.three_events) =
      existsb (flag MoreScenarios.three_events) [0; 1] /\
    (forall x, x <> next MoreScenarios.three_events ->
       flag s' x = flag MoreScenarios.three_events x) /\
    (forall e, In e [0; 1] -> hook s' e = Some (next MoreScenarios.three_events, [0; 1])) /\
    (forall x, x <> next MoreScenarios.three_events -> ~ In x [0; 1] ->
       hook s' x = hook MoreScenarios.three_events x) /\
    hook s' (next MoreScenarios.three_events) = None /\
    next s' = S (next MoreScenarios.three_events).
Proof.
  apply OrEvent_initial.
  - cbv. lia.
  - intros e [<- | [<- | []]]; cbn; lia.
Defined.

Lemma OrEvent_tracks_witness :
  flag MoreScenarios.after_calls_01 3 =
  existsb (flag MoreScenarios.after_calls_01) [0; 1].
Proof.
  apply (OrEvent_tracks MoreScenarios.three_events MoreScenarios.or_01
           MoreScenarios.after_calls_01 [0; 1] 3 MoreScenarios.calls_01 max_hook_depth).
  - intros e [<- | [<- | []]]; cbn; lia.
  - intros x d' l' H. destruct x as [|[|[|x]]]; discriminate H.
  - vm_compute. reflexivity.
  - cbn. intros H. repeat destruct H as [H | H]; try discriminate H; contradiction.
  - vm_compute. reflexivity.
Defined.

End OrEventFacts.

(** * The life cycle of [KeepAliveReader] *)

Module ReaderLifecycle.
Import Events EventFacts Reader ReaderFacts OrEventFacts ReaderProps.

Lemma fuel_pos : 0 < fuel.
Proof. cbv. lia. Qed.

Lemma fuel_SS : fuel = S (S 14).
Proof. reflexivity. Qed.

#[local] Opaque fuel.

(** Decide the comparisons [Nat.eqb a b] of the goal by arithmetic. *)
Ltac eqb_lia :=
  repeat match goal with
  | |- context [Nat.eqb ?a ?b] =>
      first [ replace (Nat.eqb a b) with true by (symmetry; apply Nat.eqb_eq; lia)
            | replace (Nat.eqb a b) with false by (symmetry; apply Nat.eqb_neq; lia) ]
  end.

(** [run] has set [closed]: it leaves the [ReaderThread] block or has
    returned. *)
Definition finished (p : pc) : bool :=
  match p with PExit | PReturned => true | _ => false end.

(** The program points between [self.connected.set()] and
    [self.connected.clear()]. *)
Definition manager_connected (p : pc) : bool :=
  match p with PHasConnected _ | PWaitDisconnect _ => true | _ => false end.

(** The callbacks installed by the two [OrEvent]s of the block over the
    adapter [(c, c+1)]: [connected_event] is [c+2] and [disconnected_event]
    is [c+3]; [close_request.changed] is the closure of
    [disconnected_event]. *)
Definition block_hooks (s : store) (c : nat) : Prop :=
  hook s c = Some (S (S c), [c; 1]) /\
  hook s (S c) = Some (S (S (S c)), [S c; 1]) /\
  hook s 1 = Some (S (S (S c)), [S c; 1]) /\
  hook s (S (S c)) = None /\ hook s (S (S (S c))) = None.

(** Inside the block: [self.protocol] is the adapter built there; in the
    connect wait, [default_timeout_s] is [None] (the open succeeded) and,
    until [close()], [connected_event] equals the adapter's [connected]. *)
Definition block_inv (w : world) : Prop :=
  match at_pc w with
  | PWaitConnect cev dev =>
      exists c, protocol (rd w) = Some (c, S c) /\ 5 <= c /\
        cev = S (S c) /\ dev = S (S (S c)) /\ block_hooks (st w) c /\
        default_timeout_s (rd w) = None /\
        (flag (st w) 1 = false -> flag (st w) cev = flag (st w) c)
  | PConnectCheck dev | PHasConnected dev | PWaitDisconnect dev =>
      exists c, protocol (rd w) = Some (c, S c) /\ 5 <= c /\
        dev = S (S (S c)) /\ block_hooks (st w) c
  | _ => True
  end.

(** [closed] is set exactly from the [return] of [run] on; before it,
    [connected] is set exactly between [self.connected.set()] and
    [self.connected.clear()]. *)
Definition Inv2 (w : world) : Prop :=
  flag (st w) 2 = finished (at_pc w) /\
  (finished (at_pc w) = false -> flag (st w) 0 = manager_connected (at_pc w)) /\
  block_inv w.

Lemma ev_clear_unhooked s e :
  hook s e = None -> ev_clear fuel s e = Some (raw_clear s e).
Proof. intros H. rewrite fuel_SS. cbn [ev_clear]. cbn [raw_clear hook]. rewrite H. reflexivity. Qed.

Lemma block_hooks_ext s s' c : hook s' = hook s -> block_hooks s c -> block_hooks s' c.
Proof. unfold block_hooks. intros ->. exact (fun H => H). Qed.

Lemma ev_clear_hop f s e x evs :
  hook s e = Some (x, evs) -> hook s x = None ->
  ev_clear (S (S f)) s e =
    Some (if existsb (flag (raw_clear s e)) evs then raw_set (raw_clear s e) x
          else raw_clear (raw_clear s e) x).
Proof.
  intros He Hx. cbn [ev_clear]. cbn [raw_clear hook]. rewrite He. unfold run_changed.
  destruct (existsb _ evs); cbn [ev_set ev_clear raw_set raw_clear hook]; rewrite Hx;
    reflexivity.
Qed.

Lemma ev_set_hop f s e x evs :
  hook s e = Some (x, evs) -> hook s x = None ->
  ev_set (S (S f)) s e =
    Some (if existsb (flag (raw_set s e)) evs then raw_set (raw_set s e) x
          else raw_clear (raw_set s e) x).
Proof.
  intros He Hx. cbn [ev_set]. cbn [raw_set hook]. rewrite He. unfold run_changed.
  destruct (existsb _ evs); cbn [ev_set ev_clear raw_set raw_clear hook]; rewrite Hx;
    reflexivity.
Qed.

(** [connection_lost(None)] of the block's adapter: [connected.clear()]
    recomputes [connected_event] from [close_request], [disconnected.set()]
    sets [disconnected_event]. *)
Lemma lost_in_block s c s' :
  5 <= c -> block_hooks s c ->
  Protocol.connection_lost fuel s false c (S c) = Some s' ->
  hook s' = hook s /\ flag s' c = false /\ flag s' (S (S c)) = flag s 1 /\
  (forall x, x < 5 -> flag s' x = flag s x).
Proof.
  intros Hc (H0 & H1 & _ & H2 & H3) H.
  unfold Protocol.connection_lost in H. rewrite fuel_SS in H.
  rewrite (ev_clear_hop _ _ _ _ _ H0 H2) in H.
  assert (E1 : existsb (flag (raw_clear s c)) [c; 1] = flag s 1).
  { cbn [existsb raw_clear flag]. unfold upd. eqb_lia. destruct (flag s 1); reflexivity. }
  rewrite E1 in H.
  set (r1 := if flag s 1 then raw_set (raw_clear s c) (S (S c))
             else raw_clear (raw_clear s c) (S (S c))) in H.
  assert (K0 : hook r1 = hook s) by (unfold r1; destruct (flag s 1); reflexivity).
  assert (K1 : hook r1 (S c) = Some (S (S (S c)), [S c; 1])) by (rewrite K0; exact H1).
  assert (K2 : hook r1 (S (S (S c))) = None) by (rewrite K0; exact H3).
  rewrite (ev_set_hop _ _ _ _ _ K1 K2) in H.
  assert (E2 : existsb (flag (raw_set r1 (S c))) [S c; 1] = true).
  { cbn [existsb raw_set flag]. unfold upd. eqb_lia. reflexivity. }
  rewrite E2 in H. injection H as <-.
  assert (F : forall x, x <> S c -> x <> S (S (S c)) ->
            flag (raw_set (raw_set r1 (S c)) (S (S (S c)))) x = flag r1 x).
  { intros x Hx1 Hx2. cbn [raw_set flag]. unfold upd. eqb_lia. reflexivity. }
  split; [cbn [raw_set hook]; exact K0|].
  split; [|split].
  - rewrite F by lia. unfold r1. destruct (flag s 1); cbn [raw_set raw_clear flag];
      unfold upd; eqb_lia; reflexivity.
  - rewrite F by lia. unfold r1. destruct (flag s 1) eqn:Fs; cbn [raw_set raw_clear flag];
      unfold upd; eqb_lia; reflexivity.
  - intros x Hx. rewrite F by lia. unfold r1.
    destruct (flag s 1); cbn [raw_set raw_clear flag]; unfold upd; eqb_lia; reflexivity.
Qed.

(** [serial_for_url] succeeds (no [default_timeout_s]): the adapter has
    connected before [ReaderThread.__enter__] returns, so [connected_event]
    is set when it is built; the events of the reader keep their state. *)
Lemma open_facts w :
  Inv w -> at_pc w = POpen -> default_timeout_s (rd w) = None ->
  exists s5,
    worker_step w (IOpen Opened) =
      Some (mkWorld s5 (with_protocol (rd w) (next (st w), S (next (st w))))
              (PWaitConnect (S (S (next (st w)))) (S (S (S (next (st w))))))) /\
    block_hooks s5 (next (st w)) /\
    flag s5 (next (st w)) = true /\ flag s5 (S (S (next (st w)))) = true /\
    (forall x, x < 5 -> flag s5 x = flag (st w) x).
Proof.
  intros HI Hpc Ht. pose proof HI as (I0 & I1 & I2 & I3 & I4 & I5 & I6 & I7 & I8).
  remember (next (st w)) as n eqn:En.
  remember (snd (Protocol.new_protocol (st w))) as s1 eqn:Es1.
  assert (Ep : Protocol.new_protocol (st w) = ((n, S n), s1)) by (subst; reflexivity).
  assert (Hn1 : hook s1 n = None).
  { subst s1 n. cbn. unfold upd. eqb_lia. reflexivity. }
  assert (Hn2 : hook s1 (S n) = None).
  { subst s1 n. cbn. unfold upd. eqb_lia. reflexivity. }
  assert (Hf1 : forall x, x < n -> flag s1 x = flag (st w) x).
  { intros x Hx. subst s1 n. cbn. unfold upd. eqb_lia. reflexivity. }
  assert (Hnx1 : next s1 = S (S n)) by (subst s1 n; reflexivity).
  set (s3 := raw_clear (raw_set s1 n) (S n)).
  assert (Hcm : Protocol.connection_made fuel s1 n (S n) = Some s3).
  { unfold Protocol.connection_made. rewrite ev_set_unhooked by exact Hn1.
    apply ev_clear_unhooked. exact Hn2. }
  assert (F3n : flag s3 n = true).
  { cbn [s3 raw_clear raw_set flag]. unfold upd. eqb_lia. reflexivity. }
  assert (F3 : forall x, x < n -> flag s3 x = flag (st w) x).
  { intros x Hx. cbn [s3 raw_clear raw_set flag]. unfold upd. eqb_lia.
    apply Hf1. exact Hx. }
  assert (N3 : next s3 = S (S n)) by exact Hnx1.
  destruct (OrEvent_new fuel s3 [n; 1]) as (s4 & O1 & O2 & O3 & O4 & O5 & O6 & O7).
  { exact fuel_pos. }
  { intros x [<- | [<- | []]]; lia. }
  rewrite N3 in O1, O2, O3, O4, O5, O6, O7.
  destruct (OrEvent_new fuel s4 [S n; 1]) as (s5 & Q1 & Q2 & Q3 & Q4 & Q5 & Q6 & Q7).
  { exact fuel_pos. }
  { intros x [<- | [<- | []]]; lia. }
  rewrite O7 in Q1, Q2, Q3, Q4, Q5, Q6, Q7.
  exists s5. split; [|split; [|split; [|split]]].
  - unfold worker_step. rewrite Hpc, Ht, Ep. cbn [fst snd]. rewrite Hcm.
    cbn [with_protocol close_request]. rewrite I1, O1, Q1. reflexivity.
  - unfold block_hooks.
    rewrite (Q5 n) by (lia || (intros [?|[?|[]]]; lia)).
    rewrite (Q5 (S (S n))) by (lia || (intros [?|[?|[]]]; lia)).
    rewrite (O4 n) by (left; reflexivity).
    rewrite (Q4 (S n)) by (left; reflexivity).
    rewrite (Q4 1) by (right; left; reflexivity).
    rewrite O6, Q6. repeat split.
  - rewrite Q3, O3 by lia. exact F3n.
  - rewrite Q3 by lia. rewrite O2. cbn [existsb]. rewrite F3n. reflexivity.
  - intros x Hx. rewrite Q3, O3 by lia. apply F3. lia.
Qed.

Lemma init_Inv2 port t : Inv2 (init_world port t).
Proof.
  unfold Inv2, init_world, block_inv. cbn. repeat split; discriminate.
Qed.

Lemma fail_with_Inv2 w e w' : Inv w -> Inv2 w -> fail_with w e = Some w' -> Inv2 w'.
Proof.
  intros HI H2 H.
  destruct (fail_with_inv _ _ _ HI H) as (_ & _ & Hpc & _ & _ & Hcl & _ & _).
  destruct HI as (I0 & I1 & I2 & _).
  rewrite I2 in Hcl.
  unfold Inv2, block_inv. rewrite Hpc. cbn [finished]. rewrite Hcl.
  split; [reflexivity|]. split; [discriminate | exact I].
Qed.

Lemma close_and_return_Inv2 w w' :
  Inv w -> close_and_return w = Some w' ->
  Inv2 w' /\ flag (st w') 0 = flag (st w) 0 /\ at_pc w' = PReturned.
Proof.
  intros HI H. pose proof HI as (I0 & I1 & I2 & I3 & I4 & I5 & I6 & I7 & I8).
  unfold close_and_return in H. rewrite I2 in H.
  destruct (ev_set fuel (st w) 2) as [s1|] eqn:E1; [|discriminate H].
  injection H as <-.
  destruct (ev_set_low 5 _ _ _ _ I6 E1) as (_ & _ & A3).
  unfold Inv2, block_inv; cbn [st rd at_pc finished].
  rewrite !A3 by lia. cbn [Nat.eqb].
  split; [|split; reflexivity].
  split; [reflexivity | split; [discriminate | exact I]].
Qed.

Lemma close_and_exit_Inv2 w w' :
  Inv w -> close_and_exit w = Some w' ->
  Inv2 w' /\ flag (st w') 0 = flag (st w) 0 /\ at_pc w' = PExit.
Proof.
  intros HI H. destruct (close_and_exit_goto _ _ H) as (w0 & E & ->).
  destruct (close_and_return_Inv2 _ _ HI E) as ((A & _ & _) & B & C).
  split; [|split; [exact B | reflexivity]].
  unfold Inv2, block_inv. cbn [goto st rd at_pc finished]. rewrite C in A. cbn in A.
  split; [exact A | split; [discriminate | exact I]].
Qed.

Lemma goto_Inv2 w p :
  Inv2 w -> finished (at_pc w) = finished p ->
  manager_connected (at_pc w) = manager_connected p -> block_inv (goto w p) ->
  Inv2 (goto w p).
Proof.
  intros (A & C & D) F M B.
  unfold Inv2; cbn [goto st rd at_pc].
  rewrite <- F, <- M. split; [exact A | split; [exact C | exact B]].
Qed.

Lemma worker_step_Inv2 w i w' :
  Inv w -> Inv2 w -> worker_step w i = Some w' -> Inv2 w'.
Proof.
  intros HI H2 H. pose proof HI as (I0 & I1 & I2 & I3 & I4 & I5 & I6 & I7 & I8).
  pose proof H2 as (A & C & D).
  destruct (at_pc w) as [| | | |cev dev|dev|dev|dev| |] eqn:Hpc;
    destruct i as [ports| |[|e]| |];
    try (unfold worker_step in H; rewrite Hpc in H; discriminate H).
  - unfold worker_step in H; rewrite Hpc in H.
    destruct (port_in _ _).
    + injection H as <-. apply goto_Inv2; rewrite ?Hpc; auto. exact I.
    + exact (fail_with_Inv2 _ _ _ HI H2 H).
  - unfold worker_step in H; rewrite Hpc in H.
    destruct (port_in _ _); injection H as <-;
      (apply goto_Inv2; rewrite ?Hpc; auto; exact I).
  - unfold worker_step in H; rewrite Hpc in H.
    destruct (is_set _ _).
    + exact (proj1 (close_and_return_Inv2 _ _ HI H)).
    + injection H as <-. apply goto_Inv2; rewrite ?Hpc; auto. exact I.
  - (* [with ReaderThread(...) as protocol] *)
    destruct (default_timeout_s (rd w)) eqn:Ht.
    + unfold worker_step in H; rewrite Hpc, Ht in H. discriminate H.
    + destruct (open_facts w HI Hpc Ht) as (s5 & E & Hh & Fc & Fcev & F).
      rewrite E in H. injection H as <-.
      unfold Inv2, block_inv in *; cbn [st rd at_pc finished manager_connected] in *.
      rewrite !F by lia. cbn in A, C.
      split; [exact A|]. split; [intros _; apply C; reflexivity|].
      exists (next (st w)). split; [reflexivity|]. split; [lia|].
      split; [reflexivity|]. split; [reflexivity|]. split; [exact Hh|].
      split; [exact Ht|]. intros _. rewrite Fc, Fcev. reflexivity.
  - unfold worker_step in H; rewrite Hpc in H.
    exact (fail_with_Inv2 _ _ _ HI H2 H).
  - unfold worker_step in H; rewrite Hpc in H.
    destruct (_ || _); [|discriminate H].
    injection H as <-. apply goto_Inv2; rewrite ?Hpc; auto.
    unfold block_inv in *; rewrite Hpc in D; cbn [goto at_pc st rd].
    destruct D as (c & P & Hc & -> & -> & Hh & _). exists c. auto.
  - unfold worker_step in H; rewrite Hpc in H.
    destruct (is_set _ _).
    + exact (proj1 (close_and_exit_Inv2 _ _ HI H)).
    + bind_some H E1. rename s into s1. injection H as <-.
      destruct (ev_set_low 5 _ _ _ _ I6 E1) as (A1 & _ & A3).
      rewrite I0 in A3.
      unfold Inv2, block_inv in *; cbn [st rd at_pc finished manager_connected] in *.
      rewrite Hpc in D. cbn in A.
      rewrite !A3 by lia. cbn [Nat.eqb].
      split; [exact A|]. split; [reflexivity|].
      destruct D as (c & P & Hc & Hd & Hh). exists c. split; [exact P|]. split; [exact Hc|]. split; [exact Hd|].
      eapply block_hooks_ext; eauto.
  - unfold worker_step in H; rewrite Hpc in H.
    bind_some H E1. rename s into s1. injection H as <-.
    destruct (ev_set_low 5 _ _ _ _ I6 E1) as (A1 & _ & A3).
    rewrite I4 in A3.
    unfold Inv2, block_inv in *; cbn [st rd at_pc finished manager_connected] in *.
    rewrite Hpc in D. cbn in A, C.
    rewrite !A3 by lia. cbn [Nat.eqb].
    split; [exact A|]. split; [exact C|].
    destruct D as (c & P & Hc & Hd & Hh). exists c. split; [exact P|]. split; [exact Hc|]. split; [exact Hd|].
      eapply block_hooks_ext; eauto.
  - unfold worker_step in H; rewrite Hpc in H.
    destruct (is_set w dev); [|discriminate H].
    destruct (is_set _ _).
    + exact (proj1 (close_and_exit_Inv2 _ _ HI H)).
    + bind_some H E1. rename s into s1. injection H as <-.
      destruct (ev_clear_low 5 _ _ _ _ I6 E1) as (A1 & A2 & A3).
      rewrite I0 in A3.
      unfold Inv2, block_inv in *; cbn [st rd at_pc finished manager_connected] in *.
      cbn in A.
      rewrite !A3 by lia. cbn [Nat.eqb].
      split; [exact A|]. split; [reflexivity | exact I].
  - unfold worker_step in H; rewrite Hpc in H.
    injection H as <-. apply goto_Inv2; rewrite ?Hpc; auto. exact I.
Qed.

Lemma step_Inv2 w a w' : Inv w -> Inv2 w -> step w a = Some w' -> Inv2 w'.
Proof.
  intros HI H2 H. pose proof HI as (I0 & I1 & I2 & I3 & I4 & I5 & I6 & I7 & I8).
  pose proof H2 as (A & C & D).
  destruct a as [i| |exception]; cbn [step] in H.
  - exact (worker_step_Inv2 _ _ _ HI H2 H).
  - unfold close in H. bind_some H E1. rename s into s1. injection H as <-.
    destruct (ev_set_low 5 _ _ _ _ I6 E1) as (A1 & _ & A3). rewrite I1 in A3.
    unfold Inv2, block_inv in *; cbn [set_store st rd at_pc] in *.
    rewrite !A3 by lia. cbn [Nat.eqb].
    split; [exact A|]. split; [exact C|].
    destruct (at_pc w); try exact I.
    + destruct D as (c & P & Hc & Hcev & Hdev & Hh & Ht & _).
      exists c. split; [exact P|]. split; [exact Hc|]. split; [exact Hcev|].
      split; [exact Hdev|]. split; [eapply block_hooks_ext; eauto|]. split; [exact Ht|].
      intros Hf. discriminate Hf.
    + destruct D as (c & P & Hc & Hd & Hh). exists c.
      split; [exact P|]. split; [exact Hc|]. split; [exact Hd|].
      eapply block_hooks_ext; eauto.
    + destruct D as (c & P & Hc & Hd & Hh). exists c.
      split; [exact P|]. split; [exact Hc|]. split; [exact Hd|].
      eapply block_hooks_ext; eauto.
    + destruct D as (c & P & Hc & Hd & Hh). exists c.
      split; [exact P|]. split; [exact Hc|]. split; [exact Hd|].
      eapply block_hooks_ext; eauto.
  - unfold adapter_lost in H.
    destruct (protocol (rd w)) as [[a b]|] eqn:Ep; [|discriminate H].
    destruct (I7 a b eq_refl) as [Ha Hb].
    cbn [fst snd] in H.
    destruct (Protocol.connection_lost fuel (st w) exception a b) as [s2|] eqn:El;
      [|discriminate H].
    injection H as <-.
    destruct exception.
    + cbn in El. injection El as <-. destruct w as [s r p]. exact H2.
    + assert (El' := El). unfold Protocol.connection_lost in El.
      bind_some El E1. rename s into s1. rename El into E2.
      destruct (ev_clear_low 5 _ _ _ _ I6 E1) as (A1 & _ & A3).
      assert (H3 : hooks_above 5 s1) by (eapply hooks_above_ext; eauto).
      destruct (ev_set_low 5 _ _ _ _ H3 E2) as (B1 & _ & B3).
      assert (F : forall x, x < 5 -> flag s2 x = flag (st w) x)
        by (intros x Hx; rewrite B3, A3 by exact Hx; eqb_lia; reflexivity).
      assert (Hk : hook s2 = hook (st w)) by congruence.
      unfold Inv2, block_inv in *; cbn [set_store st rd at_pc] in *.
      rewrite !F by lia.
      split; [exact A|]. split; [exact C|].
      destruct (at_pc w); try exact I.
      * destruct D as (c & P & Hc & Hcev & Hdev & Hh & Ht & R).
        rewrite Ep in P. injection P as Hac Hbc. subst c b.
        destruct (lost_in_block _ _ _ Hc Hh El') as (L1 & L2 & L3 & L4).
        exists a. split; [exact Ep|]. split; [exact Hc|]. split; [exact Hcev|].
        split; [exact Hdev|]. split; [eapply block_hooks_ext; eauto|]. split; [exact Ht|].
        intros Hf. rewrite Hcev, L2, L3. exact Hf.
      * destruct D as (c & P & Hc & Hd & Hh). exists c.
        split; [exact P|]. split; [exact Hc|]. split; [exact Hd|].
        eapply block_hooks_ext; eauto.
      * destruct D as (c & P & Hc & Hd & Hh). exists c.
        split; [exact P|]. split; [exact Hc|]. split; [exact Hd|].
        eapply block_hooks_ext; eauto.
      * destruct D as (c & P & Hc & Hd & Hh). exists c.
        split; [exact P|]. split; [exact Hc|]. split; [exact Hd|].
        eapply block_hooks_ext; eauto.
Qed.

Lemma exec_Inv2 : forall acts w w',
  Inv w -> Inv2 w -> exec w acts = Some w' -> Inv2 w'.
Proof.
  induction acts as [|a acts IH]; intros w w' HI H2 H; cbn [exec] in H.
  - injection H as <-. exact H2.
  - destruct (step w a) as [w1|] eqn:E; [|discriminate H].
    apply (IH w1 w'); [exact (proj1 (step_inv _ _ _ HI E)) | exact (step_Inv2 _ _ _ HI H2 E) | exact H].
Qed.

Lemma run_from_Inv2 port t acts w : run_from port t acts = Some w -> Inv2 w.
Proof. intros H. exact (exec_Inv2 _ _ _ (init_Inv port t) (init_Inv2 port t) H). Qed.

End ReaderLifecycle.

Module LifecycleFacts.
Import Events EventFacts Reader ReaderFacts OrEventFacts ReaderProps ReaderLifecycle.

Lemma ev_set_none f s e : hook s e = None -> ev_set (S f) s e = Some (raw_set s e).
Proof. intros H. cbn [ev_set]. cbn [raw_set hook]. rewrite H. reflexivity. Qed.

Lemma ev_clear_none f s e : hook s e = None -> ev_clear (S f) s e = Some (raw_clear s e).
Proof. intros H. cbn [ev_clear]. cbn [raw_clear hook]. rewrite H. reflexivity. Qed.

Lemma ev_set_hooked f s e cb :
  hook s e = Some cb -> ev_set (S f) s e = run_changed (ev_set f) (ev_clear f) (raw_set s e) cb.
Proof. intros H. cbn [ev_set]. cbn [raw_set hook]. rewrite H. reflexivity. Qed.

Lemma fuel_S : fuel = S 15.
Proof. reflexivity. Qed.

(** Each step keeps the fields of the reader, except that entering the
    [ReaderThread] block sets [self.protocol] and a failure records
    [self.error.exception]. *)
Lemma step_rd w a w' :
  step w a = Some w' ->
  rd w' = rd w \/ (exists pe, rd w' = with_protocol (rd w) pe) \/
  (exists e, rd w' = with_exception (rd w) e).
Proof.
  intros H.
  assert (Fin : forall X, Some X = Some w' ->
            rd X = rd w \/ (exists pe, rd X = with_protocol (rd w) pe) \/
            (exists e, rd X = with_exception (rd w) e) ->
            rd w' = rd w \/ (exists pe, rd w' = with_protocol (rd w) pe) \/
            (exists e, rd w' = with_exception (rd w) e))
    by (intros X HX; injection HX as <-; exact (fun K => K)).
  destruct a as [i| |exception]; cbn [step] in H.
  - unfold worker_step, fail_with, close_and_return, close_and_exit in H.
    destruct (at_pc w); destruct i as [ports| |[|e]| |]; try discriminate H;
      repeat match type of H with
        | (if ?c then _ else _) = _ => destruct c
        | (match ?c with Some _ => _ | None => _ end) = _ => destruct c
        | (let (_, _) := ?c in _) = _ => destruct c
        | None = Some _ => discriminate H
        | Some _ = Some _ =>
            apply (Fin _ H); cbn [rd goto set_store];
            first [ left; reflexivity
                  | right; left; eexists; reflexivity
                  | right; right; eexists; reflexivity ]
        end.
  - unfold close in H. destruct (ev_set _ _ _); [|discriminate H].
    injection H as <-. left. reflexivity.
  - unfold adapter_lost in H.
    destruct (protocol (rd w)); [|discriminate H].
    destruct (Protocol.connection_lost _ _ _ _ _); [|discriminate H].
    injection H as <-. left. reflexivity.
Qed.

Lemma exec_rd : forall acts w w',
  exec w acts = Some w' ->
  default_timeout_s (rd w') = default_timeout_s (rd w) /\
  (protocol (rd w) <> None -> protocol (rd w') <> None).
Proof.
  induction acts as [|a acts IH]; intros w w' H; cbn [exec] in H.
  - injection H as <-. auto.
  - destruct (step w a) as [w1|] eqn:E; [|discriminate H].
    destruct (IH _ _ H) as [T P]. rewrite T.
    destruct (step_rd _ _ _ E) as [R | [[pe R] | [e R]]]; rewrite R in P |- *;
      cbn [default_timeout_s protocol with_protocol with_exception] in P |- *;
      (split; [reflexivity|]); auto.
    intros _. apply P. discriminate.
Qed.

Lemma run_from_timeout port t acts w :
  run_from port t acts = Some w -> default_timeout_s (rd w) = t.
Proof. intros H. exact (proj1 (exec_rd _ _ _ H)). Qed.

(** While the worker waits for the disconnection, [close()] sets
    [disconnected_event] (the last [OrEvent] over [close_request]), so the
    wait returns and [run] returns through [ReaderThread.__exit__]: [alive]
    becomes false, which lets the [self.closed.wait()] of [__exit__] return;
    [connected] stays set. *)
Theorem close_ends_disconnect_wait (port : string) (timeout : option Z)
  (acts : list action) (w : world) (dev : nat) :
  run_from port timeout acts = Some w ->
  at_pc w = PWaitDisconnect dev ->
  exists w',
    exec w [Close; Worker IWaitReturn; Worker INext] = Some w' /\
    at_pc w' = PReturned /\ alive w' = false /\
    is_set w' (connected (rd w')) = true.
Proof.
  intros Hr Hpc. destruct (run_from_inv _ _ _ _ Hr) as [HI _].
  destruct (run_from_Inv2 _ _ _ _ Hr) as (A & C & D).
  pose proof HI as (I0 & I1 & I2 & I3 & I4 & I5 & I6 & I7 & I8).
  unfold block_inv in D. rewrite Hpc in D, C.
  destruct D as (c & Hp & Hc & Hdev & (_ & _ & H1 & _ & Hd)).
  rewrite <- Hdev in H1, Hd.
  specialize (C eq_refl). cbn [manager_connected] in C.
  set (s2 := raw_set (raw_set (st w) 1) dev).
  assert (Ec : close w = Some (set_store w s2)).
  { unfold close. rewrite I1, fuel_S, (ev_set_hooked _ _ _ _ H1).
    unfold run_changed.
    replace (existsb (flag (raw_set (st w) 1)) [S c; 1]) with true
      by (cbn [existsb raw_set flag]; unfold upd at 2; rewrite Nat.eqb_refl;
          rewrite !orb_true_r; reflexivity).
    rewrite ev_set_none by exact Hd. reflexivity. }
  assert (F1 : flag s2 1 = true).
  { cbn [s2 raw_set flag]. unfold upd. destruct (Nat.eqb 1 dev); reflexivity. }
  assert (F0 : flag s2 0 = true).
  { cbn [s2 raw_set flag]. unfold upd. destruct (Nat.eqb 0 dev), (Nat.eqb 0 1); auto. }
  assert (H2 : hook s2 2 = None) by (apply I8; lia).
  exists (mkWorld (raw_set s2 2) (rd w) PReturned).
  split; [|split; [reflexivity|]].
  - cbn [exec step]. rewrite Ec.
    unfold worker_step. cbn [set_store at_pc]. rewrite Hpc.
    unfold is_set. cbn [set_store st rd].
    replace (flag s2 dev) with true
      by (cbn [s2 raw_set flag]; unfold upd; rewrite Nat.eqb_refl; reflexivity).
    rewrite I1, F1. unfold close_and_exit. cbn [set_store st rd].
    rewrite I2, fuel_S, ev_set_none by exact H2. reflexivity.
  - unfold alive, is_set. cbn [st rd]. rewrite I2, I0.
    cbn [raw_set flag]. unfold upd at 1 2. cbn [Nat.eqb]. rewrite F0. split; reflexivity.
Qed.

Lemma close_ends_disconnect_wait_witness :
  exists w',
    exec MoreScenarios.connected_world [Close; Worker IWaitReturn; Worker INext] = Some w' /\
    at_pc w' = PReturned /\ alive w' = false /\
    is_set w' (connected (rd w')) = true.
Proof.
  apply (close_ends_disconnect_wait "COM1" None MoreScenarios.to_connected
           MoreScenarios.connected_world 8);
    vm_compute; reflexivity.
Defined.

End LifecycleFacts.

(** * [request]: timeouts and the polling deadline *)

Module RequestFacts.
Import Request.

(** With [poll=False], a negative [timeout_s] makes [Queue.get] raise
    [ValueError] once [device.write] has returned, even when a response is
    already queued. *)
Theorem blocking_negative_timeout {A : Type}
  (device_write : string -> Z -> outcome bool) (response_queue : queue_trace A)
  (payload : string) (timeout_s : Z) (clock : list Z) (t0 t1 : Z) (b : bool) :
  (timeout_s < 0)%Z ->
  device_write payload t0 = Done t1 b ->
  request device_write response_queue payload (Some timeout_s) false clock t0
    = Some (Raised t1 ValueError).
Proof.
  intros Hn Hw. unfold request. rewrite Hw. cbn.
  replace (timeout_s <? 0)%Z with true by (symmetry; apply Z.ltb_lt; lia).
  reflexivity.
Qed.


Lemma blocking_negative_timeout_witness :
  request (fun _ t => Done t true) [(0%Z, 42)] "ping" (Some (-1)%Z) false [] 0%Z
  = Some (Raised 0%Z ValueError).
Proof.
  apply (blocking_negative_timeout _ _ _ _ _ 0 0 true); [lia | reflexivity].
Defined.


End RequestFacts.

(** * [close()] before the port is opened *)

Module CloseFacts.
Import Events EventFacts Reader ReaderFacts OrEventFacts ReaderProps ReaderLifecycle
  LifecycleFacts.

#[local] Opaque fuel.

(** [close()] called while the worker checks for the port does not keep it
    from opening the port: when the port is listed at the next check,
    [run] still opens the serial device (and sets [protocol]); only after
    [connected_event.wait] does it see [close_request] and return, through
    [ReaderThread.__exit__], with [connected] never set. *)
Theorem close_before_open_still_opens (port : string)
  (acts : list action) (w : world) (ports : list string) :
  run_from port None acts = Some w ->
  at_pc w = PPortLoop ->
  is_set w (close_request (rd w)) = true ->
  In (comport (rd w)) ports ->
  exists w',
    exec w [Worker (IEnum ports); Worker (IOpen Opened); Worker IWaitReturn;
            Worker INext; Worker INext] = Some w' /\
    at_pc w' = PReturned /\ protocol (rd w') <> None /\
    is_set w' (connected (rd w')) = false /\ alive w' = false.
Proof.
  intros Hr Hpc Hcr Hin.
  destruct (run_from_inv _ _ _ _ Hr) as [HI _].
  pose proof (run_from_Inv2 _ _ _ _ Hr) as (_ & C & _).
  rewrite Hpc in C. specialize (C eq_refl). cbn [manager_connected] in C.
  pose proof (run_from_timeout _ _ _ _ Hr) as Ht.
  pose proof HI as (I0 & I1 & I2 & I3 & I4 & _).
  set (w0 := goto w POpen).
  assert (S0 : step w (Worker (IEnum ports)) = Some w0).
  { cbn [step]. unfold worker_step. rewrite Hpc.
    apply port_in_iff in Hin. rewrite Hin. reflexivity. }
  destruct (step_inv _ _ _ HI S0) as [HI0 _].
  destruct (open_facts w0 HI0 eq_refl Ht) as (s5 & S1 & _ & _ & Fcev & F).
  cbn [w0 goto st rd] in S1, Fcev, F.
  set (n := next (st w)) in *.
  set (w1 := mkWorld s5 (with_protocol (rd w) (n, S n))
               (PWaitConnect (S (S n)) (S (S (S n))))) in *.
  destruct (worker_step_inv _ _ _ HI0 S1) as [HI1 _].
  set (w2 := goto w1 (PConnectCheck (S (S (S n))))).
  assert (S2 : worker_step w1 IWaitReturn = Some w2).
  { unfold worker_step. cbn [w1 at_pc]. unfold is_set.
    change (st w1) with s5. rewrite Fcev. reflexivity. }
  assert (HI2 : Inv w2) by (apply goto_inv; exact HI1).
  assert (S3 : worker_step w2 INext = close_and_exit w2).
  { unfold worker_step. cbn [w2 w1 goto at_pc]. unfold is_set. cbn [st rd].
    change (st w2) with s5. change (rd w2) with (with_protocol (rd w) (n, S n)).
    unfold with_protocol. cbn [close_request]. rewrite I1, F by lia.
    unfold is_set in Hcr. rewrite I1 in Hcr. rewrite Hcr. reflexivity. }
  rewrite (close_and_exit_eq _ HI2) in S3.
  set (w3 := mkWorld (raw_set (st w2) 2) (rd w2) PExit) in *.
  exists (goto w3 PReturned).
  split; [|split; [reflexivity|split; [|split]]].
  - cbn [exec]. rewrite S0. cbn [step]. rewrite S1. cbn [step]. rewrite S2.
    rewrite S3. reflexivity.
  - cbn. discriminate.
  - unfold is_set. cbn [w3 w2 w1 goto st rd with_protocol connected].
    rewrite I0. cbn [raw_set flag]. unfold upd. cbn [Nat.eqb].
    rewrite F by lia. exact C.
  - unfold alive, is_set. cbn [w3 w2 w1 goto st rd with_protocol closed].
    rewrite I2. cbn [raw_set flag]. unfold upd. rewrite Nat.eqb_refl. reflexivity.
Qed.

Lemma close_before_open_still_opens_witness :
  exists w',
    exec MoreScenarios.closed_at_port_loop
      [Worker (IEnum ["COM1"]); Worker (IOpen Opened); Worker IWaitReturn;
       Worker INext; Worker INext] = Some w' /\
    at_pc w' = PReturned /\ protocol (rd w') <> None /\
    is_set w' (connected (rd w')) = false /\ alive w' = false.
Proof.
  apply (close_before_open_still_opens "COM1" MoreScenarios.close_at_port_loop).
  - vm_compute. reflexivity.
  - vm_compute. reflexivity.
  - vm_compute. reflexivity.
  - vm_compute. left. reflexivity.
Defined.

End CloseFacts.

Module ConnectClaims.
Import Events Reader ReaderFacts ReaderLifecycle LifecycleFacts Scenarios.

(** C3: the connect phase ([connected_event.wait(...)]) is reached only
    without [default_timeout_s] (with the keyword, [serial_for_url] refuses
    the open); there, on the first attempt as on every later one, the wait
    gets the configured timeout [None], and it does not return while
    [connected_event] is clear: it blocks without a time bound. *)
Theorem connect_wait_unbounded (port : string) (timeout : option Z)
  (acts : list action) (w : world) (cev dev : nat) :
  run_from port timeout acts = Some w -> at_pc w = PWaitConnect cev dev ->
  timeout = None /\ default_timeout_s (rd w) = None /\
  connect_timeout w = default_timeout_s (rd w) /\
  (is_set w cev = false -> worker_step w IWaitReturn = None).
Proof.
  intros Hr Hpc.
  pose proof (run_from_Inv2 _ _ _ _ Hr) as (_ & _ & B).
  unfold block_inv in B. rewrite Hpc in B.
  destruct B as (c & _ & _ & _ & _ & _ & Ht & _).
  pose proof (run_from_timeout _ _ _ _ Hr) as Ht'.
  assert (Hc : connect_timeout w = None).
  { unfold connect_timeout. rewrite Ht. destruct (is_set w (has_connected (rd w))); reflexivity. }
  split; [rewrite <- Ht'; exact Ht|].
  split; [exact Ht|].
  split; [rewrite Hc, Ht; reflexivity|].
  intros Hs. unfold worker_step. rewrite Hpc, Hs, Hc. reflexivity.
Qed.

Lemma connect_wait_unbounded_witness :
  run_from "COM1" None lost_before_connect =
    Some (the_world (run_from "COM1" None lost_before_connect)) /\
  at_pc (the_world (run_from "COM1" None lost_before_connect)) = PWaitConnect 7 8 /\
  (@None Z = None /\
   default_timeout_s (rd (the_world (run_from "COM1" None lost_before_connect))) = None /\
   connect_timeout (the_world (run_from "COM1" None lost_before_connect)) =
     default_timeout_s (rd (the_world (run_from "COM1" None lost_before_connect))) /\
   (is_set (the_world (run_from "COM1" None lost_before_connect)) 7 = false ->
    worker_step (the_world (run_from "COM1" None lost_before_connect)) IWaitReturn
      = None)).
Proof.
  assert (H1 : run_from "COM1" None lost_before_connect =
    Some (the_world (run_from "COM1" None lost_before_connect)))
    by (vm_compute; reflexivity).
  assert (H2 : at_pc (the_world (run_from "COM1" None lost_before_connect))
    = PWaitConnect 7 8) by (vm_compute; reflexivity).
  split; [exact H1|]. split; [exact H2|].
  exact (connect_wait_unbounded "COM1" None lost_before_connect _ 7 8 H1 H2).
Defined.




(** An unplugged adapter (the read raises [SerialException]): its
    [connection_lost(exception)] raises before touching the events, so the
    worker stays in [disconnected_event.wait()] with [connected] set and
    does not try to reconnect. *)
Lemma unplugged_never_reconnects :
  at_pc unplugged_world = PWaitDisconnect 8 /\
  is_set unplugged_world (connected (rd unplugged_world)) = true /\
  is_set unplugged_world 5 = true /\ is_set unplugged_world 6 = false /\
  worker_step unplugged_world IWaitReturn = None.
Proof. repeat split; vm_compute; reflexivity. Qed.

End ConnectClaims.
